(** * Pairwise-RMSD table writer: model and properties

    Shallow embedding of [scripts/pwrmsd_writer_multinode.py].

    Python integers are [Z], strings are [string], Python lists are
    [list]; [np.nan] and the scores returned by the alignment routine
    are binary64 floats ([PrimFloat.float]).  Exceptions are the
    [Raise] case of [result].  The calls of [rmsd], the runs of the
    alignment routine and the calls of the table builder are recorded
    in an event log, so that "no computation is dispatched" can be
    stated.  The files the script tests for and writes are a [world]
    passed from call to call.

    What the script takes from outside is a parameter of the model:
    [os.path.abspath], the listing [glob.glob] returns, the reading of
    a geometry file and the RMSD of two molecules.  Of pandas, the
    frame keeps its column labels and its rows, and [loc_set] follows
    [DataFrame.loc.__setitem__] for a list value: a row whose length is
    not the number of columns is refused. *)

From Stdlib Require Import ZArith NArith List Bool Ascii String Lia.
From Stdlib Require Import DecimalString DecimalN PrimFloat Finite Sorted.
Import ListNotations.

Local Open Scope string_scope.
Local Open Scope Z_scope.

(* ================================================================== *)
(** * Python primitives *)

(** ** [range] *)

(** [range(a, b)]: the integers [a], [a+1], ..., [b-1]; empty when
    [b <= a]. *)
Definition range (a b : Z) : list Z :=
  map (fun i => a + Z.of_nat i) (seq 0 (Z.to_nat (b - a))).

(** ** Exceptions *)

Inductive exn : Type :=
| FormatError        (* ValueError / IndexError / KeyError of [str.format] *)
| NoDefinedColumns   (* pandas: cannot set a frame with no defined columns *)
| MismatchedColumns  (* pandas: cannot set a row with mismatched columns *)
| ReadError.         (* pybel.readfile on a file that cannot be read *)

Inductive result (A : Type) : Type :=
| Ok (a : A)
| Raise (e : exn).
Arguments Ok {A} a.
Arguments Raise {A} e.

Definition rbind {A B} (r : result A) (f : A -> result B) : result B :=
  match r with
  | Ok a => f a
  | Raise e => Raise e
  end.

(** [[f(x) for x in xs]] where [f] may raise: the first exception
    aborts the comprehension. *)
Fixpoint rmap {A B} (f : A -> result B) (xs : list A) : result (list B) :=
  match xs with
  | [] => Ok []
  | x :: xs' =>
      rbind (f x) (fun y => rbind (rmap f xs') (fun ys => Ok (y :: ys)))
  end.

(** ** Strings *)

(** [x in l] for a list of strings. *)
Definition str_in (x : string) (l : list string) : bool :=
  existsb (String.eqb x) l.

Fixpoint zeros (n : nat) : string :=
  match n with
  | O => ""
  | S n' => String "0" (zeros n')
  end.

(** Decimal digits of a natural number, without sign or padding. *)
Definition digits (n : N) : string :=
  NilZero.string_of_uint (N.to_uint n).

Definition zfill (width : nat) (s : string) : string :=
  zeros (width - String.length s) ++ s.

(** ['%0<width>d' % x]: decimal, left-padded with zeros up to [width]
    characters; the sign of a negative number counts in the width. *)
Definition pct_0d (width : nat) (x : Z) : string :=
  if x <? 0
  then String "-" (zfill (width - 1) (digits (Z.abs_N x)))
  else zfill width (digits (Z.to_N x)).

(** [posixpath.join] for two components. *)
Definition starts_with_sep (s : string) : bool :=
  match s with
  | String "/" _ => true
  | _ => false
  end.

Fixpoint ends_with_sep (s : string) : bool :=
  match s with
  | "" => false
  | String c "" => Ascii.eqb c "/"
  | String _ r => ends_with_sep r
  end.

Definition join2 (path b : string) : string :=
  if starts_with_sep b then b
  else if (String.eqb path "" || ends_with_sep path)%bool then path ++ b
  else path ++ "/" ++ b.

(** [os.path.join] with any number of further components *)
Definition join (a : string) (p : list string) : string :=
  fold_left join2 p a.

(** [str.format] on positional arguments, with automatic field numbering.  A doubled
    brace is an escaped brace, [{}] takes the next positional argument,
    surplus arguments are ignored.  Every other use of a brace makes
    Python raise on the templates of this script: a lone brace is a
    ValueError, and a further replacement field of any form (all of the
    script's templates end with as many plain fields as there are
    arguments) ends in IndexError, KeyError, AttributeError or
    ValueError. *)
Fixpoint format_fields (t : string) (args : list string) : option string :=
  match t with
  | "" => Some ""
  | String c r =>
      if Ascii.eqb c "{" then
        match r with
        | String d r' =>
            if Ascii.eqb d "{" then option_map (String "{") (format_fields r' args)
            else if Ascii.eqb d "}" then
              match args with
              | [] => None
              | a :: args' => option_map (append a) (format_fields r' args')
              end
            else None
        | "" => None
        end
      else if Ascii.eqb c "}" then
        match r with
        | String d r' =>
            if Ascii.eqb d "}" then option_map (String "}") (format_fields r' args)
            else None
        | "" => None
        end
      else option_map (String c) (format_fields r args)
  end.

Definition format (t : string) (args : list string) : result string :=
  match format_fields t args with
  | Some s => Ok s
  | None => Raise FormatError
  end.

(** ** Lists of strings: [list.sort] *)

Fixpoint insert_sorted (x : string) (l : list string) : list string :=
  match l with
  | [] => [x]
  | y :: l' => if String.leb x y then x :: l else y :: insert_sorted x l'
  end.

(** [l.sort()] on a list of strings (code-point order). *)
Definition sort (l : list string) : list string :=
  fold_right insert_sorted [] l.

(* ================================================================== *)
(** * pandas: the part of [DataFrame] the script uses *)

(** A frame with the column labels it was created with and its rows,
    each stored under its index label, in order of insertion. *)
Record DataFrame : Type := mkDataFrame {
  columns : list Z;
  rows : list (Z * list float)
}.

(** [pd.DataFrame(columns=range(n))] *)
Definition new_frame (n : Z) : DataFrame :=
  {| columns := range 0 n; rows := [] |}.

Fixpoint lookup_row (label : Z) (rs : list (Z * list float)) : option (list float) :=
  match rs with
  | [] => None
  | (k, r) :: rs' => if k =? label then Some r else lookup_row label rs'
  end.

Fixpoint replace_row (label : Z) (row : list float) (rs : list (Z * list float))
  : list (Z * list float) :=
  match rs with
  | [] => []
  | (k, r) :: rs' =>
      if k =? label then (k, row) :: rs' else (k, r) :: replace_row label row rs'
  end.

(** [df.loc[label] = row] with [row] a Python list.  A new label
    enlarges the frame by one row; pandas refuses a list whose length
    is not the number of columns (ValueError), and refuses to enlarge a
    frame that has no columns. *)
Definition loc_set (df : DataFrame) (label : Z) (row : list float) : result DataFrame :=
  match lookup_row label (rows df) with
  | Some _ =>
      if Nat.eqb (List.length row) (List.length (columns df))
      then Ok {| columns := columns df; rows := replace_row label row (rows df) |}
      else Raise MismatchedColumns
  | None =>
      if Nat.eqb (List.length (columns df)) 0 then Raise NoDefinedColumns
      else if Nat.eqb (List.length row) (List.length (columns df))
      then Ok {| columns := columns df; rows := (rows df ++ [(label, row)])%list |}
      else Raise MismatchedColumns
  end.

(** [df.loc[i, j]]: the cell of row [i] under column label [j], when
    both exist.  The column labels are [0 .. n-1], so label [j] is at
    position [j]. *)
Definition cell (df : DataFrame) (i j : Z) : option float :=
  match lookup_row i (rows df) with
  | Some r => if j <? 0 then None else nth_error r (Z.to_nat j)
  | None => None
  end.

(* ================================================================== *)
(** * The file system the script writes to *)

Inductive file : Type :=
| TextFile (lines : list string)
| PickleFile (df : DataFrame).

(** The files written or found so far, newest first.  Writing creates
    the file: the directories written to are taken to exist. *)
Definition world : Type := list (string * file).

Definition isfile (w : world) (p : string) : bool :=
  existsb (fun e => String.eqb (fst e) p) w.

Definition write_file (w : world) (p : string) (f : file) : world :=
  (p, f) :: w.

(* ================================================================== *)
(** * Event log and computations *)

Inductive event : Type :=
| Compare (target ref : string)   (* one call of [rmsd] *)
| Align (ref target : string)     (* one run of the alignment routine *)
| Build (c : Z).                  (* one call of the table builder *)

(** A computation: the events it caused and its outcome. *)
Definition comp (A : Type) : Type := (list event * result A)%type.

Definition ret {A} (a : A) : comp A := ([], Ok a).

Definition bind {A B} (m : comp A) (f : A -> comp B) : comp B :=
  match m with
  | (l, Ok a) => let (l', r) := f a in ((l ++ l')%list, r)
  | (l, Raise e) => (l, Raise e)
  end.

Definition lift {A} (r : result A) : comp A := ([], r).

Definition emit (e : event) : comp unit := ([e], Ok tt).

Declare Scope comp_scope.
Delimit Scope comp_scope with comp.
Notation "x <- m ;; k" := (bind m (fun x => k))
  (at level 61, m at next level, right associativity) : comp_scope.
Notation "m ;;; k" := (bind m (fun _ => k))
  (at level 61, right associativity) : comp_scope.
Local Open Scope comp_scope.

(** [Pool().map(f, xs)]: every element is handed to a worker, whatever
    happens to the others; the results come back in the order of [xs];
    an exception in a worker is raised again by [map]. *)
Fixpoint pool_map {A B} (f : A -> comp B) (xs : list A) : comp (list B) :=
  match xs with
  | [] => ret []
  | x :: xs' =>
      let (l1, r1) := f x in
      let (l2, r2) := pool_map f xs' in
      ((l1 ++ l2)%list,
       match r1, r2 with
       | Ok y, Ok ys => Ok (y :: ys)
       | Raise e, _ => Raise e
       | Ok _, Raise e => Raise e
       end)
  end.

(* ================================================================== *)
(** * The script *)

Section Script.

(** [os.path.abspath], which depends on the working directory. *)
Variable abspath : string -> string.
(** [glob.glob]: the listing of the result directory. *)
Variable glob : string -> list string.
(** Molecules, [next(pybel.readfile("xyz", p))] ([None]: the file
    cannot be read) and the RMSD after [OBAlign(False, True)] of a
    target molecule onto a reference molecule. *)
Variable Mol : Type.
Variable readfile : string -> option Mol.
Variable GetRMSD : Mol -> Mol -> float.

(** ** [find_invalid_confs] *)

Definition geomdir (ID ADD : string) : string :=
  abspath ("output/dft/" ++ ID ++ "_" ++ ADD).

Definition tsvpath : string :=
  abspath "output/mobility/mobcal/conformer_ccs".

(** [t]: the template of the result file names. *)
Definition tsv_template (ID ADD : string) : string :=
  join tsvpath [(ID ++ "_" ++ ADD ++ "_") ++ "{}_geom{}.tsv"].

(** The path appended for cycle string [c] and geometry string [g]. *)
Definition conformer_xyz (ID ADD c g : string) : string :=
  join (geomdir ID ADD)
    ["cycle_" ++ c ++ "_geom" ++ g;
     ID ++ "_" ++ ADD ++ "_" ++ c ++ "_geom" ++ g ++ ".xyz"].

(** The body of the inner loop: the paths appended for one [(c, g)]. *)
Definition missing_result (ID ADD : string) (tsvs : list string) (c g : string)
  : result (list string) :=
  rbind (format (tsv_template ID ADD) [c; g]) (fun name =>
    if negb (str_in name tsvs) then Ok [conformer_xyz ID ADD c g] else Ok []).

Definition find_invalid_confs (w : world) (ID ADD : string) (save : bool)
    (tot_cyc tot_geom : Z) : world * result (list string) :=
  let cycles := map (pct_0d 4) (range 1 (tot_cyc + 1)) in
  let geoms := map (pct_0d 2) (range 1 (tot_geom + 1)) in
  let tsvs := sort (glob (join tsvpath ["*.tsv"])) in
  match rmap (fun c => rmap (missing_result ID ADD tsvs c) geoms) cycles with
  | Raise e => (w, Raise e)
  | Ok found =>
      let conformers := List.concat (List.concat found) in
      ((if save
        then write_file w "invalid_conf_paths.txt" (TextFile conformers)
        else w),
       Ok conformers)
  end.

(** ** [rmsd] *)

Definition rmsd (target ref : string) (invalid : list string) : comp float :=
  emit (Compare target ref) ;;;
  if str_in target invalid then ret nan
  else
    match readfile ref with
    | None => lift (Raise ReadError)
    | Some a =>
        match readfile target with
        | None => lift (Raise ReadError)
        | Some b => emit (Align ref target) ;;; ret (GetRMSD a b)
        end
    end.

(** ** [pwrmsd_writer_multinode] *)

Section Builder.

Variable current_cyc : Z.
Variable writedir : string.
Variable invalid : list string.
Variables ID ADD : string.
Variables tot_cyc tot_geom : Z.

Definition confstring : string :=
  join (geomdir ID ADD)
    ["cycle_{}_geom{}"; (ID ++ "_" ++ ADD ++ "_") ++ "{}_geom{}.xyz"].

(** [confstring.format(cstr, gstr, cstr, gstr)] for the 0-based
    cycle [c] and geometry [g]. *)
Definition conf_path (c g : Z) : result string :=
  let cstr := pct_0d 4 (c + 1) in
  let gstr := pct_0d 2 (g + 1) in
  format confstring [cstr; gstr; cstr; gstr].

Definition prev (current_geom : Z) : Z := current_cyc * 50 + current_geom.

(** The cells appended by the first loop of the row. *)
Definition leading_cells (current_geom : Z) : list float :=
  map (fun _ => nan) (range 0 (prev current_geom)).

(** The list [conformers] the row of [current_geom] is compared with. *)
Definition comparison_set (current_geom : Z) : result (list string) :=
  rbind (rmap (fun g => conf_path current_cyc g)
              (range (current_geom + 1) tot_geom)) (fun same_cycle =>
  rbind (rmap (fun c => rmap (fun g => conf_path c g) (range 0 tot_geom))
              (range (current_cyc + 1) tot_cyc)) (fun later_cycles =>
  Ok (same_cycle ++ List.concat later_cycles)%list)).

(** The row assembled for a slot whose own file is in the invalid set:
    the leading cells, the cell of the slot itself and the trailing
    fill [zeros]. *)
Definition placeholder_row (current_geom : Z) : list float :=
  ((leading_cells current_geom ++ [nan]) ++
   map (fun _ => nan) (range (prev current_geom + 1) (tot_cyc * tot_geom)))%list.

(** The body of the loop over the geometries, up to the row. *)
Definition make_row (current_geom : Z) : comp (list float) :=
  let row := leading_cells current_geom in
  let row := (row ++ [nan])%list in
  conf0 <- lift (conf_path current_cyc current_geom) ;;
  if str_in conf0 invalid then
    let zeros :=
      map (fun _ => nan) (range (prev current_geom + 1) (tot_cyc * tot_geom)) in
    ret (row ++ zeros)%list
  else
    conformers <- lift (comparison_set current_geom) ;;
    pwrmsd <- pool_map (fun target => rmsd target conf0 invalid) conformers ;;
    ret (row ++ pwrmsd)%list.

Fixpoint fill_rows (geometries : list Z) (current_df : DataFrame)
  : comp DataFrame :=
  match geometries with
  | [] => ret current_df
  | current_geom :: rest =>
      row <- make_row current_geom ;;
      df' <- lift (loc_set current_df current_geom row) ;;
      fill_rows rest df'
  end.

(** The table of the cycle, as it stands when it is pickled. *)
Definition build_table : comp DataFrame :=
  fill_rows (range 0 tot_geom) (new_frame (tot_cyc * tot_geom)).

Definition pkl_path (c : Z) : string :=
  join writedir
    [ID ++ "_" ++ ADD ++ "_cycle" ++ pct_0d 4 (c + 1) ++ "_pwrmsd.pkl"].

Definition pwrmsd_writer_multinode (w : world) : world * comp unit :=
  match build_table with
  | (log, Ok current_df) =>
      (write_file w (pkl_path current_cyc) (PickleFile current_df), (log, Ok tt))
  | (log, Raise e) => (w, (log, Raise e))
  end.

End Builder.

(** ** The driver *)

Definition main_writedir : string := abspath "pwRMSD".

Fixpoint run_cycles (cs : list Z) (invalid : list string) (ID ADD : string)
    (tot_cyc tot_geom : Z) (w : world) : world * comp unit :=
  match cs with
  | [] => (w, ret tt)
  | c :: rest =>
      if isfile w (pkl_path main_writedir ID ADD c)
      then run_cycles rest invalid ID ADD tot_cyc tot_geom w
      else
        match pwrmsd_writer_multinode c main_writedir invalid ID ADD
                tot_cyc tot_geom w with
        | (w', (log, Ok _)) =>
            let '(w'', (log', r)) :=
              run_cycles rest invalid ID ADD tot_cyc tot_geom w' in
            (w'', ((Build c :: log ++ log')%list, r))
        | (w', (log, Raise e)) => (w', (Build c :: log, Raise e))
        end
  end.

(** The main program, for the command line [start stop]; [ID], [ADD]
    and the totals are the constants set in the source (the totals
    are 1000 and 50 there). *)
Definition main (ID ADD : string) (tot_cyc tot_geom : Z) (start stop : Z)
    (w : world) : world * comp unit :=
  match find_invalid_confs w ID ADD true tot_cyc tot_geom with
  | (w1, Raise e) => (w1, lift (Raise e))
  | (w1, Ok invalid) =>
      run_cycles (range start stop) invalid ID ADD tot_cyc tot_geom w1
  end.

End Script.

(* ================================================================== *)
(** * Vocabulary of the specification *)

(** The position of slot [(cyc, geom)] in the flattened order of all
    [(cycle, geometry)] slots, for [tot_geom] geometries per cycle. *)
Definition flat_index (tot_geom cyc geom : Z) : Z := cyc * tot_geom + geom.

(** A row that holds placeholders only. *)
Definition all_nan (row : list float) : Prop := Forall (fun x => x = nan) row.

(** Slot order: by cycle, then by geometry. *)
Definition slot_lt (s s' : Z * Z) : Prop :=
  fst s < fst s' \/ (fst s = fst s' /\ snd s < snd s').

(** The comparison set in the words of the specification: every later
    geometry of the same cycle, then every geometry of every later
    cycle, each in ascending order. *)
Definition later_slots (tot_cyc tot_geom cyc geom : Z) : list (Z * Z) :=
  (map (fun g => (cyc, g)) (range (geom + 1) tot_geom) ++
   flat_map (fun c => map (fun g => (c, g)) (range 0 tot_geom))
     (range (cyc + 1) tot_cyc))%list.

(** All the [(cycle, geometry)] numbers the scanner goes through, in
    its order (both count from 1). *)
Definition expected_pairs (tot_cyc tot_geom : Z) : list (Z * Z) :=
  flat_map (fun c => map (fun g => (c, g)) (range 1 (tot_geom + 1)))
    (range 1 (tot_cyc + 1)).

(** The name [t.format(c, g)] of the result file of the pair [s], and
    the path of its input conformer. *)
Definition result_file (abspath : string -> string) (ID ADD : string) (s : Z * Z)
  : result string :=
  format (tsv_template abspath ID ADD) [pct_0d 4 (fst s); pct_0d 2 (snd s)].

Definition input_path (abspath : string -> string) (ID ADD : string) (s : Z * Z)
  : string :=
  conformer_xyz abspath ID ADD (pct_0d 4 (fst s)) (pct_0d 2 (snd s)).


(** A template that can be filled in with two arguments: its braces,
    besides the two fields, are all doubled. *)
Definition takes_two_fields (t : string) : Prop :=
  exists name, format t [""; ""] = Ok name.

(** The name of the result file of the pair [s], whenever the template
    can be filled in. *)
Definition result_name (abspath : string -> string) (ID ADD : string) (s : Z * Z)
  : string :=
  match result_file abspath ID ADD s with
  | Ok name => name
  | Raise _ => ""
  end.

(** A string without braces. *)
Fixpoint plain (s : string) : bool :=
  match s with
  | "" => true
  | String c r => (negb (Ascii.eqb c "{") && negb (Ascii.eqb c "}") && plain r)%bool
  end.

(** The number a string of decimal digits stands for ([None] when a
    character is not a digit). *)
Definition number_of (s : string) : option N :=
  option_map N.of_uint (NilEmpty.uint_of_string s).

(* ================================================================== *)
(** * A concrete environment, for running the model *)

(** The script started in [/w]. *)
Definition example_abspath (p : string) : string := "/w/" ++ p.

(** Every geometry file can be read; a molecule is stood for by the
    path it was read from. *)
Definition example_readfile (p : string) : option string := Some p.

Definition example_GetRMSD (a b : string) : float := 1.5%float.

(** An empty result directory. *)
Definition example_empty_glob (pattern : string) : list string := [].

(** A result directory that holds the result file of cycle 2,
    geometry 1 and nothing else. *)
Definition example_one_glob (pattern : string) : list string :=
  ["/w/output/mobility/mobcal/conformer_ccs/X_+H_0002_geom01.tsv"].

(** A result directory with the result files of all of 3 cycles of 2
    geometries. *)
Definition example_full_glob (pattern : string) : list string :=
  map (fun s => "/w/output/mobility/mobcal/conformer_ccs/X_+H_"
                ++ pct_0d 4 (fst s) ++ "_geom" ++ pct_0d 2 (snd s) ++ ".tsv")
    (expected_pairs 3 2).

(** The geometry file of a 0-based slot, for identifier [X] and adduct
    [+H]. *)
Definition example_conf (c g : Z) : string :=
  "/w/output/dft/X_+H/cycle_" ++ pct_0d 4 (c + 1) ++ "_geom" ++ pct_0d 2 (g + 1)
  ++ "/X_+H_" ++ pct_0d 4 (c + 1) ++ "_geom" ++ pct_0d 2 (g + 1) ++ ".xyz".

(** The builder on cycle 0 of 3 cycles of 2 geometries, with
    [invalid] as the invalid set. *)
Definition example_build (invalid : list string) : comp DataFrame :=
  build_table example_abspath string example_readfile example_GetRMSD
    0 invalid "X" "+H" 3 2.

(** Its table when every conformer is valid. *)
Definition example_table : DataFrame :=
  {| columns := [0; 1; 2; 3; 4; 5];
     rows := [(0, [nan; 1.5; 1.5; 1.5; 1.5; 1.5]%float);
              (1, [nan; nan; 1.5; 1.5; 1.5; 1.5]%float)] |}.

(** Its table when the second geometry of the cycle is invalid. *)
Definition example_table_invalid : DataFrame :=
  {| columns := [0; 1; 2; 3; 4; 5];
     rows := [(0, [nan; nan; 1.5; 1.5; 1.5; 1.5]%float);
              (1, [nan; nan; nan; nan; nan; nan]%float)] |}.

(** The builder on cycle 1 of 2 cycles of 50 geometries, every
    conformer valid, and its table. *)
Definition example_build_50 : comp DataFrame :=
  build_table example_abspath string example_readfile example_GetRMSD
    1 [] "X" "+H" 2 50.

Definition example_table_50 : DataFrame :=
  match snd example_build_50 with
  | Ok df => df
  | Raise _ => new_frame 0
  end.

(** The driver on cycles [start .. stop-1] of 3 cycles of 2
    geometries, all results present. *)
Definition example_main (start stop : Z) (w : world) : world * comp unit :=
  main example_abspath example_full_glob string example_readfile example_GetRMSD
    "X" "+H" 3 2 start stop w.


(* ================================================================== *)
(** * Facts about the primitives *)

Example pct_0d_ex1 : pct_0d 4 1 = "0001". Proof. reflexivity. Qed.
Example pct_0d_ex2 : pct_0d 2 50 = "50". Proof. reflexivity. Qed.
Example pct_0d_ex3 : pct_0d 4 12345 = "12345". Proof. reflexivity. Qed.
Example pct_0d_ex4 : pct_0d 4 (-5) = "-005". Proof. reflexivity. Qed.
Example pct_0d_ex5 : pct_0d 4 0 = "0000". Proof. reflexivity. Qed.
Example join_ex1 : join "/a/b" ["cycle_{}_geom{}"; "X_+H_{}_geom{}.xyz"]
                   = "/a/b/cycle_{}_geom{}/X_+H_{}_geom{}.xyz".
Proof. reflexivity. Qed.
Example join_ex2 : join "/a/b/" ["c"] = "/a/b/c". Proof. reflexivity. Qed.
Example join_ex3 : join "/a/b" ["/c"] = "/c". Proof. reflexivity. Qed.
Example format_ex1 :
  format "/r/X_+H_{}_geom{}.tsv" ["0001"; "02"] = Ok "/r/X_+H_0001_geom02.tsv".
Proof. reflexivity. Qed.
Example format_ex2 : format "/r/{_+H_{}_geom{}.tsv" ["0001"; "02"] = Raise FormatError.
Proof. reflexivity. Qed.
Example format_ex3 : format "a{{b}}{}" ["x"] = Ok "a{b}x". Proof. reflexivity. Qed.
Example range_ex : range 2 5 = [2; 3; 4]. Proof. reflexivity. Qed.

Lemma length_range (a b : Z) : List.length (range a b) = Z.to_nat (b - a).
Proof. unfold range. now rewrite length_map, length_seq. Qed.

Lemma In_range (a b x : Z) : In x (range a b) <-> a <= x < b.
Proof.
  unfold range. rewrite in_map_iff. split.
  - intros (i & <- & Hi). apply in_seq in Hi. lia.
  - intros H. exists (Z.to_nat (x - a)). split; [lia|].
    apply in_seq. lia.
Qed.

Lemma NoDup_range (a b : Z) : NoDup (range a b).
Proof.
  unfold range. apply Finite.Injective_map_NoDup.
  - intros i j H. lia.
  - apply seq_NoDup.
Qed.

Lemma range_empty (a b : Z) : b <= a -> range a b = [].
Proof.
  intros H. unfold range. replace (Z.to_nat (b - a)) with 0%nat by lia.
  reflexivity.
Qed.

Lemma range_cons (a b : Z) : a < b -> range a b = a :: range (a + 1) b.
Proof.
  intros H. unfold range.
  replace (Z.to_nat (b - a)) with (S (Z.to_nat (b - (a + 1)))) by lia.
  cbn [seq map]. f_equal; [lia|].
  rewrite <- seq_shift, map_map. apply map_ext. intros i. lia.
Qed.

Lemma all_nan_map {A} (l : list A) : all_nan (map (fun _ => nan) l).
Proof. induction l; constructor; auto. Qed.

Lemma all_nan_app (r1 r2 : list float) :
  all_nan r1 -> all_nan r2 -> all_nan (r1 ++ r2)%list.
Proof. intros H1 H2. apply Forall_app. now split. Qed.

Lemma all_nan_nth (row : list float) (n : nat) (v : float) :
  all_nan row -> nth_error row n = Some v -> v = nan.
Proof.
  intros H Hn. apply nth_error_In in Hn.
  unfold all_nan in H. rewrite Forall_forall in H. now apply H.
Qed.

(** ** Comprehensions that may raise *)

Lemma rmap_ok {A B} (f : A -> result B) (g : A -> B) (xs : list A) :
  (forall x, In x xs -> f x = Ok (g x)) -> rmap f xs = Ok (map g xs).
Proof.
  induction xs as [|x xs IH]; intros H; [reflexivity|].
  cbn. rewrite (H x (or_introl eq_refl)). cbn.
  rewrite IH by (intros y Hy; apply H; now right). reflexivity.
Qed.

Lemma rmap_length {A B} (f : A -> result B) (xs : list A) (ys : list B) :
  rmap f xs = Ok ys -> List.length ys = List.length xs.
Proof.
  revert ys. induction xs as [|x xs IH]; intros ys H; cbn in H.
  - now inversion H.
  - destruct (f x) as [y|e]; cbn in H; [|discriminate].
    destruct (rmap f xs) as [ys'|e]; cbn in H; [|discriminate].
    inversion H; subst. cbn. f_equal. now apply IH.
Qed.

Lemma rmap_app {A B} (f : A -> result B) (xs ys : list A) :
  rmap f (xs ++ ys)%list =
  rbind (rmap f xs) (fun a => rbind (rmap f ys) (fun b => Ok (a ++ b)%list)).
Proof.
  induction xs as [|x xs IH]; cbn.
  - destruct (rmap f ys); reflexivity.
  - destruct (f x) as [y|e]; cbn; [|reflexivity].
    rewrite IH. destruct (rmap f xs) as [a|e]; cbn; [|reflexivity].
    destruct (rmap f ys); reflexivity.
Qed.

Lemma rmap_map {A B C} (f : B -> result C) (h : A -> B) (xs : list A) :
  rmap f (map h xs) = rmap (fun x => f (h x)) xs.
Proof.
  induction xs as [|x xs IH]; cbn; [reflexivity|]. now rewrite IH.
Qed.

Lemma rmap_flat_map {A B C} (f : B -> result C) (h : A -> list B) (xs : list A) :
  rmap f (flat_map h xs) =
  rbind (rmap (fun x => rmap f (h x)) xs) (fun yss => Ok (List.concat yss)).
Proof.
  induction xs as [|x xs IH]; cbn; [reflexivity|].
  rewrite rmap_app, IH.
  destruct (rmap f (h x)) as [a|e]; cbn; [|reflexivity].
  destruct (rmap (fun x0 => rmap f (h x0)) xs); reflexivity.
Qed.

(** ** The worker pool *)

Lemma pool_map_length {A B} (f : A -> comp B) (xs : list A) log (ys : list B) :
  pool_map f xs = (log, Ok ys) -> List.length ys = List.length xs.
Proof.
  revert log ys. induction xs as [|x xs IH]; intros log ys H; cbn in H.
  - inversion H. reflexivity.
  - destruct (f x) as [l1 r1]. destruct (pool_map f xs) as [l2 r2].
    destruct r1 as [y|e]; [|inversion H].
    destruct r2 as [ys'|e]; inversion H; subst.
    cbn. f_equal. now apply (IH l2).
Qed.

Lemma pool_map_log {A B} (f : A -> comp B) (xs : list A) (e : event) :
  In e (fst (pool_map f xs)) -> exists x, In x xs /\ In e (fst (f x)).
Proof.
  induction xs as [|x xs IH]; cbn; [tauto|].
  destruct (f x) as [l1 r1] eqn:Hx. destruct (pool_map f xs) as [l2 r2].
  cbn. intros H. apply in_app_or in H. destruct H as [H|H].
  - exists x. rewrite Hx. auto.
  - destruct (IH H) as (y & Hy & He). exists y. auto.
Qed.

(** ** Computations *)

Lemma bind_ok_nil {A B} (a : A) (f : A -> comp B) : bind ([], Ok a) f = f a.
Proof. unfold bind. now destruct (f a). Qed.

Lemma bind_raise {A B} l (e : exn) (f : A -> comp B) :
  bind (l, Raise e) f = (l, Raise e).
Proof. reflexivity. Qed.

Lemma bind_inv_ok {A B} (m : comp A) (f : A -> comp B) log (b : B) :
  bind m f = (log, Ok b) ->
  exists l1 a l2, m = (l1, Ok a) /\ f a = (l2, Ok b) /\ log = (l1 ++ l2)%list.
Proof.
  destruct m as [l1 [a|e]]; cbn; [|discriminate].
  destruct (f a) as [l2 r] eqn:Hf. intros H. inversion H; subst.
  now exists l1, a, l2.
Qed.

Lemma bind_log {A B} (m : comp A) (f : A -> comp B) (e : event) :
  In e (fst (bind m f)) ->
  In e (fst m) \/ exists a, snd m = Ok a /\ In e (fst (f a)).
Proof.
  destruct m as [l1 [a|x]]; cbn; [|auto].
  destruct (f a) as [l2 r] eqn:Hf. cbn. intros H.
  apply in_app_or in H. destruct H; [auto|].
  right. exists a. rewrite Hf. auto.
Qed.

(** ** The frame *)

Lemma lookup_replace_row (k k' : Z) (row : list float) rs :
  lookup_row k' (replace_row k row rs) =
  if k' =? k
  then match lookup_row k rs with Some _ => Some row | None => None end
  else lookup_row k' rs.
Proof.
  induction rs as [|[j r] rs IH]; cbn.
  - now destruct (k' =? k).
  - destruct (j =? k) eqn:Hjk; cbn.
    + apply Z.eqb_eq in Hjk. subst j.
      rewrite (Z.eqb_sym k k'). now destruct (k' =? k).
    + destruct (j =? k') eqn:Hjk'.
      * apply Z.eqb_eq in Hjk'. subst j. now rewrite Hjk.
      * exact IH.
Qed.

Lemma lookup_row_app (k : Z) rs rs' :
  lookup_row k (rs ++ rs')%list =
  match lookup_row k rs with Some r => Some r | None => lookup_row k rs' end.
Proof.
  induction rs as [|[j r] rs IH]; cbn; [reflexivity|].
  now destruct (j =? k).
Qed.

Lemma loc_set_ok (df df' : DataFrame) (k : Z) (row : list float) :
  loc_set df k row = Ok df' ->
  columns df' = columns df /\
  List.length row = List.length (columns df) /\
  lookup_row k (rows df') = Some row /\
  (forall k', k' <> k -> lookup_row k' (rows df') = lookup_row k' (rows df)).
Proof.
  unfold loc_set. intros H.
  destruct (lookup_row k (rows df)) as [old|] eqn:Hk.
  - destruct (Nat.eqb_spec (List.length row) (List.length (columns df))) as [E|E];
      [|discriminate].
    inversion H; subst; cbn. repeat split; auto.
    + now rewrite lookup_replace_row, Z.eqb_refl, Hk.
    + intros k' Hk'. rewrite lookup_replace_row.
      destruct (Z.eqb_spec k' k); [contradiction|reflexivity].
  - destruct (Nat.eqb (List.length (columns df)) 0); [discriminate|].
    destruct (Nat.eqb_spec (List.length row) (List.length (columns df))) as [E|E];
      [|discriminate].
    inversion H; subst; cbn. repeat split; auto.
    + rewrite lookup_row_app, Hk. cbn. now rewrite Z.eqb_refl.
    + intros k' Hk'. rewrite lookup_row_app. cbn.
      destruct (Z.eqb_spec k k'); [congruence|].
      now destruct (lookup_row k' (rows df)).
Qed.

(* ================================================================== *)
(** * Facts about strings, templates and paths *)

Lemma append_assoc (a b c : string) : (a ++ b) ++ c = a ++ (b ++ c).
Proof. induction a as [|x a IH]; cbn; [reflexivity|now rewrite IH]. Qed.

Lemma append_nil_r (a : string) : a ++ "" = a.
Proof. induction a as [|x a IH]; cbn; [reflexivity|now rewrite IH]. Qed.

Lemma append_inv_head (a b c : string) : a ++ b = a ++ c -> b = c.
Proof.
  induction a as [|x a IH]; cbn; [auto|]. intros H. inversion H. auto.
Qed.

Lemma length_append (a b : string) :
  String.length (a ++ b) = (String.length a + String.length b)%nat.
Proof. induction a as [|x a IH]; cbn; [reflexivity|now rewrite IH]. Qed.

Lemma list_ascii_of_append (a b : string) :
  list_ascii_of_string (a ++ b) =
  (list_ascii_of_string a ++ list_ascii_of_string b)%list.
Proof. induction a as [|x a IH]; cbn; [reflexivity|now rewrite IH]. Qed.

Lemma list_ascii_of_string_inj (a b : string) :
  list_ascii_of_string a = list_ascii_of_string b -> a = b.
Proof.
  intros H. rewrite <- (string_of_list_ascii_of_string a),
    <- (string_of_list_ascii_of_string b). now rewrite H.
Qed.

Lemma append_inv_tail (a b c : string) : a ++ c = b ++ c -> a = b.
Proof.
  intros H. apply list_ascii_of_string_inj.
  apply (f_equal list_ascii_of_string) in H.
  rewrite !list_ascii_of_append in H. now apply app_inv_tail in H.
Qed.

(** Two strings that end with different characters differ. *)
Lemma append_last_neq (a b : string) (x y : ascii) :
  x <> y -> a ++ String x "" <> b ++ String y "".
Proof.
  intros Hxy H. apply (f_equal list_ascii_of_string) in H.
  rewrite !list_ascii_of_append in H. cbn in H.
  apply app_inj_tail in H. now destruct H.
Qed.

(** ** [join] *)

Lemma starts_with_sep_append (s r : string) :
  s <> "" -> starts_with_sep (s ++ r) = starts_with_sep s.
Proof. destruct s; [congruence|reflexivity]. Qed.

Lemma join2_append (a s r : string) :
  s <> "" -> join2 a (s ++ r) = join2 a s ++ r.
Proof.
  intros Hs. unfold join2. rewrite starts_with_sep_append by assumption.
  destruct (starts_with_sep s); [reflexivity|].
  destruct (String.eqb a "" || ends_with_sep a)%bool.
  - now rewrite append_assoc.
  - rewrite append_assoc. reflexivity.
Qed.

Lemma append_nonempty (a b : string) (x : ascii) : a ++ String x b <> "".
Proof. destruct a; discriminate. Qed.

(** ** [format] *)

(** The text of a template without fields is what it formats to
    without arguments; it is then a prefix of whatever a longer
    template formats to. *)
Lemma format_fields_literal_prefix (n : nat) :
  forall (J J' t : string) (args : list string),
    (String.length J <= n)%nat ->
    format_fields J [] = Some J' ->
    format_fields (J ++ t) args = option_map (append J') (format_fields t args).
Proof.
  induction n as [|n IH]; intros J J' t args Hn HJ.
  - destruct J; [|cbn in Hn; lia]. cbn in HJ. inversion HJ; subst. cbn.
    now destruct (format_fields t args).
  - destruct J as [|c r].
    { cbn in HJ. inversion HJ; subst. cbn. now destruct (format_fields t args). }
    cbn in Hn. cbn [append format_fields] in *.
    destruct (Ascii.eqb c "{") eqn:Eo.
    + destruct r as [|d r']; [discriminate|]. cbn [append] in *.
      destruct (Ascii.eqb d "{"); [|destruct (Ascii.eqb d "}"); discriminate].
      destruct (format_fields r' []) as [u|] eqn:Hu; [|discriminate].
      cbn in HJ. inversion HJ; subst. cbn in Hn.
      rewrite (IH r' u t args) by (auto; lia).
      now destruct (format_fields t args).
    + destruct (Ascii.eqb c "}") eqn:Ec.
      * destruct r as [|d r']; [discriminate|]. cbn [append] in *.
        destruct (Ascii.eqb d "}"); [|discriminate].
        destruct (format_fields r' []) as [u|] eqn:Hu; [|discriminate].
        cbn in HJ. inversion HJ; subst. cbn in Hn.
        rewrite (IH r' u t args) by (auto; lia).
        now destruct (format_fields t args).
      * destruct (format_fields r []) as [u|] eqn:Hu; [|discriminate].
        cbn in HJ. inversion HJ; subst.
        rewrite (IH r u t args) by (auto; lia).
        now destruct (format_fields t args).
Qed.

(** A template that ends with two fields needs two arguments for them;
    given exactly two, what stands before these fields has no field of
    its own. *)
Lemma format_fields_two_trailing (f1 f2 : string) (n : nat) :
  (forall r, f1 <> String "}" r) -> (forall r, f2 <> String "}" r) ->
  forall (J : string) (args : list string),
    (String.length J <= n)%nat ->
    format_fields (J ++ String "{" (String "}" (f1 ++ String "{" (String "}" f2))))
      args <> None ->
    (2 <= List.length args)%nat /\
    (List.length args = 2%nat -> format_fields J [] <> None).
Proof.
  intros Hf1 Hf2.
  set (S2 := String "{" (String "}" (f1 ++ String "{" (String "}" f2)))).
  assert (Hclose : forall f args,
             (forall r, f <> String "}" r) ->
             format_fields (String "}" f) args = None).
  { intros f args Hf. cbn [format_fields Ascii.eqb Bool.eqb].
    destruct f as [|x f']; [reflexivity|].
    destruct (Ascii.eqb_spec x "}"); [subst; now elim (Hf f')|reflexivity]. }
  assert (Hbase : forall args, format_fields S2 args <> None ->
                               (2 <= List.length args)%nat).
  { intros args. unfold S2. cbn [format_fields]. cbn [Ascii.eqb Bool.eqb].
    destruct args as [|a args]; [congruence|].
    destruct (format_fields (f1 ++ String "{" (String "}" f2)) args) eqn:E;
      [|cbn; congruence].
    intros _. destruct args as [|b args]; [|cbn; lia].
    exfalso. clear -E Hclose Hf2. revert E.
    assert (G : forall m u, (String.length u <= m)%nat ->
                format_fields (u ++ String "{" (String "}" f2)) [] = None).
    { induction m as [|m IHm]; intros u Hu.
      - destruct u; [reflexivity|cbn in Hu; lia].
      - destruct u as [|c r]; [reflexivity|]. cbn in Hu.
        cbn [append format_fields].
        destruct (Ascii.eqb c "{") eqn:Eo.
        + destruct r as [|d r'].
          { cbn [append Ascii.eqb Bool.eqb]. now rewrite Hclose. }
          cbn [append].
          destruct (Ascii.eqb d "{").
          * cbn in Hu. rewrite IHm by lia. reflexivity.
          * destruct (Ascii.eqb d "}"); reflexivity.
        + destruct (Ascii.eqb c "}") eqn:Ec.
          * destruct r as [|d r']; [reflexivity|]. cbn [append].
            destruct (Ascii.eqb d "}"); [|reflexivity].
            cbn in Hu. rewrite IHm by lia. reflexivity.
          * rewrite IHm by lia. reflexivity. }
    intros E. rewrite (G (String.length f1) f1) in E by lia. discriminate. }
  induction n as [|n IH]; intros J args Hn H.
  - destruct J; [|cbn in Hn; lia]. cbn [append] in H. split; [now apply Hbase|].
    intros _. cbn. congruence.
  - destruct J as [|c r].
    { cbn [append] in H. split; [now apply Hbase|]. intros _. cbn. congruence. }
    cbn in Hn. cbn [append format_fields] in H |- *.
    destruct (Ascii.eqb c "{") eqn:Eo.
    + destruct r as [|d r'].
      * exfalso. apply H. cbn [append]. unfold S2.
        cbn [Ascii.eqb Bool.eqb]. rewrite Hclose; [reflexivity|].
        intros r. destruct f1 as [|x f1']; cbn [append]; [discriminate|].
        intros E. inversion E; subst. now elim (Hf1 f1').
      * cbn [append] in H. cbn in Hn.
        destruct (Ascii.eqb d "{").
        -- destruct (IH r' args) as (H2 & H3); [lia| |].
           { intro E. apply H. fold S2. rewrite E. reflexivity. }
           split; [assumption|]. intros Hl. specialize (H3 Hl).
           destruct (format_fields r' []); [cbn; congruence|congruence].
        -- destruct (Ascii.eqb d "}"); [|congruence].
           destruct args as [|a args]; [congruence|].
           destruct (IH r' args) as (H2 & _); [lia| |].
           { intro E. apply H. fold S2. rewrite E. reflexivity. }
           cbn. split; lia.
    + destruct (Ascii.eqb c "}") eqn:Ec.
      * destruct r as [|d r'].
        -- exfalso. apply H. reflexivity.
        -- cbn [append] in H. cbn in Hn.
           destruct (Ascii.eqb d "}"); [|congruence].
           destruct (IH r' args) as (H2 & H3); [lia| |].
           { intro E. apply H. fold S2. rewrite E. reflexivity. }
           split; [assumption|]. intros Hl. specialize (H3 Hl).
           destruct (format_fields r' []); [cbn; congruence|congruence].
      * destruct (IH r args) as (H2 & H3); [lia| |].
        { intro E. apply H. fold S2. rewrite E. reflexivity. }
        split; [assumption|]. intros Hl. specialize (H3 Hl).
        destruct (format_fields r []); [cbn; congruence|congruence].
Qed.

(** Whether a template can be filled in depends on how many arguments
    it is given, not on what they are. *)
Lemma format_fields_arity (n : nat) :
  forall (t : string) (args args' : list string),
    (String.length t <= n)%nat ->
    List.length args = List.length args' ->
    format_fields t args = None -> format_fields t args' = None.
Proof.
  assert (Hmap : forall {A B} (f : A -> B) (o : option A),
             option_map f o = None -> o = None).
  { intros A B f [a|]; [discriminate|reflexivity]. }
  induction n as [|n IH]; intros t args args' Hn Hlen H.
  - destruct t; [discriminate|cbn in Hn; lia].
  - destruct t as [|c r]; [discriminate|]. cbn in Hn.
    cbn [format_fields] in H |- *.
    destruct (Ascii.eqb c "{").
    + destruct r as [|d r']; [reflexivity|]. cbn in Hn.
      destruct (Ascii.eqb d "{").
      * apply Hmap in H. rewrite (IH r' args args') by (auto; lia). reflexivity.
      * destruct (Ascii.eqb d "}"); [|reflexivity].
        destruct args as [|a args], args' as [|a' args']; try discriminate;
          [reflexivity|].
        apply Hmap in H. cbn in Hlen.
        rewrite (IH r' args args') by (auto; lia). reflexivity.
    + destruct (Ascii.eqb c "}").
      * destruct r as [|d r']; [reflexivity|]. cbn in Hn.
        destruct (Ascii.eqb d "}"); [|reflexivity].
        apply Hmap in H. rewrite (IH r' args args') by (auto; lia). reflexivity.
      * apply Hmap in H. rewrite (IH r args args') by (auto; lia). reflexivity.
Qed.

(** When the path of one slot can be formatted, so can the path of
    every slot. *)
Lemma conf_path_total (abspath : string -> string) (ID ADD : string)
    (c0 g0 : Z) (conf0 : string) :
  conf_path abspath ID ADD c0 g0 = Ok conf0 ->
  exists path : Z * Z -> string,
    forall c g, conf_path abspath ID ADD c g = Ok (path (c, g)).
Proof.
  intros H.
  exists (fun s => match conf_path abspath ID ADD (fst s) (snd s) with
                   | Ok p => p
                   | Raise _ => ""
                   end).
  intros c g. cbn [fst snd].
  destruct (conf_path abspath ID ADD c g) as [p|e] eqn:E; [reflexivity|].
  exfalso. unfold conf_path, format in *.
  destruct (format_fields (confstring abspath ID ADD) _) eqn:E' in E; [discriminate|].
  eapply format_fields_arity in E'; [rewrite E' in H; discriminate|apply le_n|].
  reflexivity.
Qed.

(** ** Zero-padded decimals *)

Lemma number_of_digits (n : N) : number_of (digits n) = Some n.
Proof.
  unfold number_of, digits.
  assert (Hn : N.to_uint n <> Decimal.Nil).
  { destruct n; [discriminate|]. apply DecimalPos.Unsigned.to_uint_nonnil. }
  assert (E : NilZero.string_of_uint (N.to_uint n)
              = NilEmpty.string_of_uint (N.to_uint n)).
  { destruct (N.to_uint n); [congruence|reflexivity..]. }
  rewrite E, NilEmpty.usu. cbn. f_equal. apply DecimalN.Unsigned.of_to.
Qed.

Lemma number_of_zero_head (s : string) : number_of (String "0" s) = number_of s.
Proof.
  unfold number_of. cbn. now destruct (NilEmpty.uint_of_string s).
Qed.

Lemma number_of_zeros (k : nat) (s : string) : number_of (zeros k ++ s) = number_of s.
Proof.
  induction k as [|k IH]; cbn [zeros append]; [reflexivity|].
  now rewrite number_of_zero_head.
Qed.

Lemma number_of_zfill (w : nat) (n : N) : number_of (zfill w (digits n)) = Some n.
Proof. unfold zfill. now rewrite number_of_zeros, number_of_digits. Qed.

Lemma number_of_minus (s : string) : number_of (String "-" s) = None.
Proof.
  unfold number_of. cbn. now destruct (NilEmpty.uint_of_string s).
Qed.

Lemma number_of_pct_0d (w : nat) (x : Z) :
  0 <= x -> number_of (pct_0d w x) = Some (Z.to_N x).
Proof.
  intros Hx. unfold pct_0d. destruct (Z.ltb_spec x 0); [lia|].
  apply number_of_zfill.
Qed.

(** ['%0wd'] never prints two integers alike. *)
Lemma pct_0d_inj (w : nat) (x y : Z) : pct_0d w x = pct_0d w y -> x = y.
Proof.
  unfold pct_0d. intros H.
  destruct (Z.ltb_spec x 0), (Z.ltb_spec y 0).
  - inversion H as [E]. apply (f_equal number_of) in E.
    rewrite !number_of_zfill in E. inversion E. lia.
  - apply (f_equal number_of) in H.
    rewrite number_of_minus, number_of_zfill in H. discriminate.
  - apply (f_equal number_of) in H.
    rewrite number_of_minus, number_of_zfill in H. discriminate.
  - apply (f_equal number_of) in H.
    rewrite !number_of_zfill in H. inversion H. lia.
Qed.

(** A run of digits ends where the first character that is not a digit
    stands. *)
Lemma digits_end_at_separator (ch : ascii) (u u' r r' : string) :
  (forall o, uint_of_char ch o = None) ->
  number_of u <> None -> number_of u' <> None ->
  u ++ String ch r = u' ++ String ch r' ->
  u = u' /\ r = r'.
Proof.
  intros Hch. unfold number_of.
  assert (Hhead : forall c s, NilEmpty.uint_of_string (String c s) <> None -> c <> ch).
  { intros c s H E. subst c. apply H. cbn. apply Hch. }
  assert (Htail : forall c s, NilEmpty.uint_of_string (String c s) <> None ->
                              NilEmpty.uint_of_string s <> None).
  { intros c s H E. apply H. cbn. rewrite E. reflexivity. }
  assert (Hsome : forall s, option_map N.of_uint (NilEmpty.uint_of_string s) <> None ->
                            NilEmpty.uint_of_string s <> None).
  { intros s H E. apply H. now rewrite E. }
  revert u'. induction u as [|c u IH]; intros [|c' u'] Hu Hu' H; cbn in H.
  - inversion H. auto.
  - inversion H; subst. apply Hsome in Hu'. now elim (Hhead _ _ Hu').
  - inversion H; subst. apply Hsome in Hu. now elim (Hhead _ _ Hu).
  - inversion H; subst. apply Hsome in Hu, Hu'.
    destruct (IH u') as (-> & ->); auto.
    + intro E. apply (Htail _ _ Hu).
      destruct (NilEmpty.uint_of_string u); [discriminate|reflexivity].
    + intro E. apply (Htail _ _ Hu').
      destruct (NilEmpty.uint_of_string u'); [discriminate|reflexivity].
Qed.

(** ** The names of the result files *)

Section ResultFiles.

Variable abspath : string -> string.
Variables ID ADD : string.

Local Abbreviation template := (tsv_template abspath ID ADD).

Lemma tsv_template_shape :
  template = join2 (tsvpath abspath) (ID ++ "_" ++ ADD ++ "_") ++ "{}_geom{}.tsv".
Proof.
  unfold tsv_template, join. cbn [fold_left].
  apply join2_append. apply append_nonempty.
Qed.

(** When the template can be filled in at all, it is a fixed text
    followed by the two numbers and their separators. *)
Lemma result_file_shape (c0 g0 name0 : string) :
  format template [c0; g0] = Ok name0 ->
  exists J', forall c g,
    format template [c; g] = Ok (J' ++ c ++ "_geom" ++ g ++ ".tsv").
Proof.
  unfold format. rewrite tsv_template_shape.
  set (J := join2 (tsvpath abspath) (ID ++ "_" ++ ADD ++ "_")).
  intros H.
  assert (Hne : format_fields
                  (J ++ String "{" (String "}" ("_geom" ++ String "{" (String "}" ".tsv"))))
                  [c0; g0] <> None).
  { intro E. cbn [append] in E. rewrite E in H. discriminate. }
  destruct (format_fields_two_trailing "_geom" ".tsv" (String.length J)
              ltac:(discriminate) ltac:(discriminate) J [c0; g0] (le_n _) Hne)
    as (_ & HJ).
  specialize (HJ eq_refl).
  destruct (format_fields J []) as [J'|] eqn:EJ; [|congruence].
  exists J'. intros c g.
  rewrite (format_fields_literal_prefix (String.length J) J J') by auto.
  reflexivity.
Qed.


End ResultFiles.

(* ================================================================== *)
(** * Facts about [rmsd] and the table builder *)

Section BuilderFacts.

Variable abspath : string -> string.
Variable Mol : Type.
Variable readfile : string -> option Mol.
Variable GetRMSD : Mol -> Mol -> float.

Local Abbreviation rmsd' := (rmsd Mol readfile GetRMSD).

Lemma rmsd_invalid_target (target ref : string) (invalid : list string) :
  str_in target invalid = true ->
  rmsd' target ref invalid = ([Compare target ref], Ok nan).
Proof. intros H. unfold rmsd. cbn. now rewrite H. Qed.

Lemma rmsd_valid_target (target ref : string) (invalid : list string) :
  str_in target invalid = false ->
  rmsd' target ref invalid =
  match readfile ref, readfile target with
  | Some a, Some b => ([Compare target ref; Align ref target], Ok (GetRMSD a b))
  | _, _ => ([Compare target ref], Raise ReadError)
  end.
Proof.
  intros H. unfold rmsd. cbn. rewrite H.
  destruct (readfile ref); [|reflexivity].
  destruct (readfile target); reflexivity.
Qed.

Lemma rmsd_log (target ref : string) (invalid : list string) (e : event) :
  In e (fst (rmsd' target ref invalid)) ->
  e = Compare target ref \/ e = Align ref target.
Proof.
  destruct (str_in target invalid) eqn:H.
  - rewrite rmsd_invalid_target by assumption. cbn. intuition.
  - rewrite rmsd_valid_target by assumption.
    destruct (readfile ref); [destruct (readfile target)|]; cbn; intuition.
Qed.

Variable current_cyc : Z.
Variable invalid : list string.
Variables ID ADD : string.
Variables tot_cyc tot_geom : Z.

Local Abbreviation conf_path' := (conf_path abspath ID ADD).
Local Abbreviation comparison_set' :=
  (comparison_set abspath current_cyc ID ADD tot_cyc tot_geom).
Local Abbreviation make_row' :=
  (make_row abspath Mol readfile GetRMSD current_cyc invalid ID ADD tot_cyc tot_geom).
Local Abbreviation fill_rows' :=
  (fill_rows abspath Mol readfile GetRMSD current_cyc invalid ID ADD tot_cyc tot_geom).
Local Abbreviation build_table' :=
  (build_table abspath Mol readfile GetRMSD current_cyc invalid ID ADD tot_cyc tot_geom).
Local Abbreviation placeholder_row' := (placeholder_row current_cyc tot_cyc tot_geom).

Lemma placeholder_row_all_nan (g : Z) : all_nan (placeholder_row' g).
Proof.
  unfold placeholder_row, leading_cells.
  repeat apply all_nan_app; try apply all_nan_map.
  constructor; [reflexivity|constructor].
Qed.

Lemma make_row_invalid (g : Z) (conf0 : string) :
  conf_path' current_cyc g = Ok conf0 ->
  str_in conf0 invalid = true ->
  make_row' g = ([], Ok (placeholder_row' g)).
Proof.
  intros Hc Hi. unfold make_row. rewrite Hc. unfold lift at 1.
  rewrite bind_ok_nil, Hi. reflexivity.
Qed.

Lemma make_row_valid (g : Z) (conf0 : string) :
  conf_path' current_cyc g = Ok conf0 ->
  str_in conf0 invalid = false ->
  make_row' g =
  (conformers <- lift (comparison_set' g) ;;
   pwrmsd <- pool_map (fun target => rmsd' target conf0 invalid) conformers ;;
   ret ((leading_cells current_cyc g ++ [nan]) ++ pwrmsd)%list).
Proof.
  intros Hc Hi. unfold make_row. rewrite Hc. unfold lift at 1.
  rewrite bind_ok_nil, Hi. reflexivity.
Qed.

(** What a row that was built looks like. *)
Lemma make_row_shape (g : Z) log (row : list float) :
  make_row' g = (log, Ok row) ->
  exists conf0 tail,
    conf_path' current_cyc g = Ok conf0 /\
    row = ((leading_cells current_cyc g ++ [nan]) ++ tail)%list /\
    ((str_in conf0 invalid = true /\ row = placeholder_row' g /\ log = []) \/
     (str_in conf0 invalid = false /\
      exists conformers,
        comparison_set' g = Ok conformers /\
        List.length tail = List.length conformers)).
Proof.
  intros H.
  destruct (conf_path' current_cyc g) as [conf0|e] eqn:Hc.
  2:{ unfold make_row in H. rewrite Hc in H. cbn in H. discriminate. }
  destruct (str_in conf0 invalid) eqn:Hi.
  - rewrite (make_row_invalid g conf0 Hc Hi) in H. inversion H; subst.
    eexists conf0, _. split; [reflexivity|]. split; [reflexivity|].
    left. auto.
  - rewrite (make_row_valid g conf0 Hc Hi) in H.
    destruct (comparison_set' g) as [conformers|e] eqn:Hs; unfold lift in H;
      [rewrite bind_ok_nil in H | rewrite bind_raise in H; discriminate].
    destruct (pool_map (fun target => rmsd' target conf0 invalid) conformers)
      as [l r] eqn:Hp.
    destruct r as [pwrmsd|e]; cbv [bind ret] in H; [|discriminate].
    inversion H; subst.
    exists conf0, pwrmsd. split; [reflexivity|]. split; [reflexivity|].
    right. split; [assumption|]. exists conformers. split; [reflexivity|].
    eapply pool_map_length; eauto.
Qed.

(** Every event of a row has the row's own, valid, file as reference. *)
Lemma make_row_log (g : Z) (e : event) :
  In e (fst (make_row' g)) ->
  exists conf0 target,
    conf_path' current_cyc g = Ok conf0 /\
    str_in conf0 invalid = false /\
    (e = Compare target conf0 \/ e = Align conf0 target).
Proof.
  intros H.
  destruct (conf_path' current_cyc g) as [conf0|x] eqn:Hc.
  2:{ unfold make_row in H. rewrite Hc in H. cbn in H. contradiction. }
  destruct (str_in conf0 invalid) eqn:Hi.
  - rewrite (make_row_invalid g conf0 Hc Hi) in H. contradiction.
  - rewrite (make_row_valid g conf0 Hc Hi) in H.
    destruct (comparison_set' g) as [conformers|x]; unfold lift in H;
      [rewrite bind_ok_nil in H | rewrite bind_raise in H; contradiction].
    pose proof (pool_map_log (fun target => rmsd' target conf0 invalid)
                  conformers e) as Hl.
    destruct (pool_map (fun target => rmsd' target conf0 invalid) conformers)
      as [l r].
    assert (He : In e l).
    { destruct r; cbv [bind ret fst] in H; [now rewrite app_nil_r in H | exact H]. }
    destruct (Hl He) as (t & _ & Ht).
    apply rmsd_log in Ht. exists conf0, t. auto.
Qed.

Lemma fill_rows_log (gs : list Z) (df : DataFrame) (e : event) :
  In e (fst (fill_rows' gs df)) ->
  exists g, In g gs /\ In e (fst (make_row' g)).
Proof.
  revert df. induction gs as [|g gs IH]; intros df H; cbn [fill_rows] in H.
  - contradiction.
  - apply bind_log in H. destruct H as [H|(row & _ & H)].
    + exists g. split; [now left|assumption].
    + apply bind_log in H. destruct H as [H|(df' & _ & H)]; [contradiction|].
      destruct (IH _ H) as (g' & Hg' & He). exists g'. split; [now right|assumption].
Qed.

(** One turn of the loop that did not raise. *)
Lemma fill_rows_cons_ok (g : Z) (gs : list Z) (df df' : DataFrame) log :
  fill_rows' (g :: gs) df = (log, Ok df') ->
  exists l row df1 l',
    make_row' g = (l, Ok row) /\ loc_set df g row = Ok df1 /\
    fill_rows' gs df1 = (l', Ok df').
Proof.
  cbn [fill_rows]. intros H.
  apply bind_inv_ok in H. destruct H as (l & row & l2 & Hm & H & _).
  apply bind_inv_ok in H. destruct H as (l3 & df1 & l' & Hl & H & _).
  unfold lift in Hl. inversion Hl; subst. now exists l, row, df1, l'.
Qed.

Lemma fill_rows_other (k : Z) (gs : list Z) (df df' : DataFrame) log :
  fill_rows' gs df = (log, Ok df') -> ~ In k gs ->
  lookup_row k (rows df') = lookup_row k (rows df).
Proof.
  revert df log. induction gs as [|g gs IH]; intros df log H Hn.
  - cbn in H. now inversion H.
  - apply fill_rows_cons_ok in H. destruct H as (l & row & df1 & l' & _ & Hl & Hf).
    rewrite (IH _ _ Hf) by (intro; apply Hn; now right).
    apply (loc_set_ok _ _ _ _ Hl). intro; apply Hn; now left.
Qed.

(** The rows of the table the loop returns. *)
Lemma fill_rows_rows (gs : list Z) (df df' : DataFrame) log :
  fill_rows' gs df = (log, Ok df') ->
  columns df' = columns df /\
  (forall g, In g gs -> lookup_row g (rows df') <> None) /\
  (forall k row, lookup_row k (rows df') = Some row ->
     lookup_row k (rows df) = Some row \/
     (In k gs /\ List.length row = List.length (columns df) /\
      exists l, make_row' k = (l, Ok row))).
Proof.
  revert df log. induction gs as [|g gs IH]; intros df log H.
  - cbn in H. inversion H; subst. repeat split; auto; intros g [].
  - apply fill_rows_cons_ok in H. destruct H as (l & row & df1 & l' & Hg & Hl & Hf).
    destruct (IH _ _ Hf) as (Hc & Hp & Hr).
    destruct (loc_set_ok _ _ _ _ Hl) as (Hc1 & Hlen & Hk & Hother).
    split; [congruence|]. split.
    + intros k [<-|Hk']; [|now apply Hp].
      destruct (in_dec Z.eq_dec g gs) as [Hin|Hnin]; [now apply Hp|].
      rewrite (fill_rows_other _ _ _ _ _ Hf Hnin), Hk. discriminate.
    + intros k row' Hrow.
      destruct (Hr _ _ Hrow) as [Hold|(Hin & Hlen' & l0 & Hm)].
      * destruct (Z.eq_dec k g) as [->|Hne].
        -- right. rewrite Hk in Hold. inversion Hold; subst.
           split; [now left|]. split; [assumption|]. now exists l.
        -- left. now rewrite <- (Hother _ Hne).
      * right. split; [now right|]. split; [congruence|]. now exists l0.
Qed.

Lemma build_table_rows (df : DataFrame) log :
  build_table' = (log, Ok df) ->
  List.length (columns df) = Z.to_nat (tot_cyc * tot_geom) /\
  (forall g, 0 <= g < tot_geom -> lookup_row g (rows df) <> None) /\
  (forall g row, lookup_row g (rows df) = Some row ->
     0 <= g < tot_geom /\
     List.length row = Z.to_nat (tot_cyc * tot_geom) /\
     exists l, make_row' g = (l, Ok row)).
Proof.
  unfold build_table. intros H.
  destruct (fill_rows_rows _ _ _ _ H) as (Hc & Hp & Hr).
  assert (Hcols : List.length (columns df) = Z.to_nat (tot_cyc * tot_geom)).
  { rewrite Hc. cbn. rewrite length_range. f_equal. lia. }
  split; [exact Hcols|]. split.
  - intros g Hg. apply Hp. now apply In_range.
  - intros g row Hrow. destruct (Hr _ _ Hrow) as [Hold|(Hin & Hlen & Hm)].
    + discriminate.
    + apply In_range in Hin. split; [assumption|]. split; [|assumption].
      rewrite Hlen. cbn. rewrite length_range. f_equal. lia.
Qed.

End BuilderFacts.

(* ================================================================== *)
(** * Sorted lists of slots *)

Lemma StronglySorted_app_intro {A} (R : A -> A -> Prop) (l1 l2 : list A) :
  StronglySorted R l1 -> StronglySorted R l2 ->
  (forall x y, In x l1 -> In y l2 -> R x y) ->
  StronglySorted R (l1 ++ l2)%list.
Proof.
  induction 1 as [|a l1 Hs IH Ha]; intros H2 Hx; cbn; [assumption|].
  constructor.
  - apply IH; [assumption|]. intros x y Hin. apply Hx. now right.
  - apply Forall_app. split; [assumption|].
    apply Forall_forall. intros y Hy. apply Hx; [now left|assumption].
Qed.

Lemma StronglySorted_map_mono {A B} (R : A -> A -> Prop) (R' : B -> B -> Prop)
    (f : A -> B) (l : list A) :
  (forall x y, R x y -> R' (f x) (f y)) ->
  StronglySorted R l -> StronglySorted R' (map f l).
Proof.
  intros Hm. induction 1 as [|a l Hs IH Ha]; cbn; constructor; [assumption|].
  apply Forall_map. eapply Forall_impl; [|exact Ha]. intros y. apply Hm.
Qed.

Lemma StronglySorted_flat_map {A B} (R : A -> A -> Prop) (R' : B -> B -> Prop)
    (h : A -> list B) (cs : list A) :
  (forall c, StronglySorted R' (h c)) ->
  (forall c c' x y, R c c' -> In x (h c) -> In y (h c') -> R' x y) ->
  StronglySorted R cs -> StronglySorted R' (flat_map h cs).
Proof.
  intros Hh Hcross. induction 1 as [|c cs Hs IH Hc]; cbn; [constructor|].
  apply StronglySorted_app_intro; [apply Hh|assumption|].
  intros x y Hx Hy. apply in_flat_map in Hy. destruct Hy as (c' & Hc' & Hy).
  rewrite Forall_forall in Hc. eapply Hcross; eauto.
Qed.

Lemma StronglySorted_seq (a n : nat) : StronglySorted lt (seq a n).
Proof.
  revert a. induction n as [|n IH]; intros a; cbn; constructor; [apply IH|].
  apply Forall_forall. intros y Hy. apply in_seq in Hy. lia.
Qed.

Lemma StronglySorted_range (a b : Z) : StronglySorted Z.lt (range a b).
Proof.
  unfold range. eapply StronglySorted_map_mono; [|apply StronglySorted_seq].
  intros x y H. cbn beta. lia.
Qed.

Lemma later_slots_sorted (tot_cyc tot_geom cyc geom : Z) :
  StronglySorted slot_lt (later_slots tot_cyc tot_geom cyc geom).
Proof.
  unfold later_slots. apply StronglySorted_app_intro.
  - eapply StronglySorted_map_mono; [|apply StronglySorted_range].
    intros x y H. right. cbn. lia.
  - eapply StronglySorted_flat_map; [| |apply StronglySorted_range].
    + intros c. eapply StronglySorted_map_mono; [|apply StronglySorted_range].
      intros x y H. right. cbn. lia.
    + intros c c' x y H Hx Hy. apply in_map_iff in Hx, Hy.
      destruct Hx as (g & <- & _). destruct Hy as (g' & <- & _). now left.
  - intros x y Hx Hy. apply in_map_iff in Hx. destruct Hx as (g & <- & _).
    apply in_flat_map in Hy. destruct Hy as (c & Hc & Hy).
    apply in_map_iff in Hy. destruct Hy as (g' & <- & _).
    apply In_range in Hc. left. cbn. lia.
Qed.

Lemma In_later_slots (tot_cyc tot_geom cyc geom c g : Z) :
  In (c, g) (later_slots tot_cyc tot_geom cyc geom) <->
  (c = cyc /\ geom < g < tot_geom) \/ (cyc < c < tot_cyc /\ 0 <= g < tot_geom).
Proof.
  unfold later_slots. rewrite in_app_iff, in_map_iff, in_flat_map. split.
  - intros [(g' & E & Hg)|(c' & Hc & Hg)].
    + inversion E; subst. apply In_range in Hg. left. lia.
    + apply in_map_iff in Hg. destruct Hg as (g' & E & Hg). inversion E; subst.
      apply In_range in Hc, Hg. right. lia.
  - intros [(-> & Hg)|(Hc & Hg)].
    + left. exists g. split; [reflexivity|]. apply In_range. lia.
    + right. exists c. split; [apply In_range; lia|].
      apply in_map_iff. exists g. split; [reflexivity|]. apply In_range. lia.
Qed.

Lemma length_flat_map_const {A B} (h : A -> list B) (n : nat) (cs : list A) :
  (forall c, List.length (h c) = n) ->
  List.length (flat_map h cs) = (List.length cs * n)%nat.
Proof.
  intros Hn. induction cs as [|c cs IH]; cbn; [reflexivity|].
  now rewrite length_app, Hn, IH.
Qed.

Lemma length_later_slots (tot_cyc tot_geom cyc geom : Z) :
  List.length (later_slots tot_cyc tot_geom cyc geom) =
  (Z.to_nat (tot_geom - (geom + 1)) +
   Z.to_nat (tot_cyc - (cyc + 1)) * Z.to_nat (tot_geom - 0))%nat.
Proof.
  unfold later_slots. rewrite length_app, length_map, length_range.
  rewrite (length_flat_map_const _ (Z.to_nat (tot_geom - 0))).
  - now rewrite length_range.
  - intros c. now rewrite length_map, length_range.
Qed.

Lemma rmap_ext {A B} (f f' : A -> result B) (xs : list A) :
  (forall x, f x = f' x) -> rmap f xs = rmap f' xs.
Proof.
  intros H. induction xs as [|x xs IH]; cbn; [reflexivity|].
  now rewrite H, IH.
Qed.

(** The list [conformers] holds the paths of [later_slots], in that
    order. *)
Lemma comparison_set_later_slots (abspath : string -> string)
    (current_cyc : Z) (ID ADD : string) (tot_cyc tot_geom current_geom : Z) :
  comparison_set abspath current_cyc ID ADD tot_cyc tot_geom current_geom =
  rmap (fun s => conf_path abspath ID ADD (fst s) (snd s))
    (later_slots tot_cyc tot_geom current_cyc current_geom).
Proof.
  unfold comparison_set, later_slots.
  rewrite rmap_app, rmap_map, rmap_flat_map. cbn [fst snd].
  destruct (rmap _ (range (current_geom + 1) tot_geom)) as [same|e];
    cbn [rbind]; [|reflexivity].
  rewrite (rmap_ext
             (fun x => rmap (fun s => conf_path abspath ID ADD (fst s) (snd s))
                         (map (fun g => (x, g)) (range 0 tot_geom)))
             (fun c => rmap (fun g => conf_path abspath ID ADD c g)
                         (range 0 tot_geom)))
    by (intros c; now rewrite rmap_map).
  destruct (rmap _ (range (current_cyc + 1) tot_cyc)); reflexivity.
Qed.

(* ================================================================== *)
(** * Properties of [rmsd] and of the table *)

Section TableProperties.

Variable abspath : string -> string.
Variable Mol : Type.
Variable readfile : string -> option Mol.
Variable GetRMSD : Mol -> Mol -> float.

Local Abbreviation rmsd' := (rmsd Mol readfile GetRMSD).

(** C6: [rmsd] returns the placeholder when its target is in the
    invalid set (nothing is read or aligned); otherwise it reads both
    files, runs the alignment once and returns the score of the
    alignment routine (a file that cannot be read makes the library
    raise).  Only the membership of the target decides: two invalid
    sets that agree on the target give the same outcome, whatever they
    say about the reference. *)
Theorem rmsd_branches_on_target (target ref : string) (invalid : list string) :
  (str_in target invalid = true ->
   rmsd' target ref invalid = ([Compare target ref], Ok nan)) /\
  (str_in target invalid = false ->
   rmsd' target ref invalid =
   match readfile ref, readfile target with
   | Some a, Some b => ([Compare target ref; Align ref target], Ok (GetRMSD a b))
   | _, _ => ([Compare target ref], Raise ReadError)
   end) /\
  (forall invalid',
     str_in target invalid' = str_in target invalid ->
     rmsd' target ref invalid' = rmsd' target ref invalid).
Proof.
  split; [apply rmsd_invalid_target|]. split; [apply rmsd_valid_target|].
  intros invalid' H. destruct (str_in target invalid) eqn:E.
  - now rewrite !rmsd_invalid_target.
  - now rewrite !rmsd_valid_target.
Qed.

Variable current_cyc : Z.
Variable invalid : list string.
Variables ID ADD : string.
Variables tot_cyc tot_geom : Z.

Local Abbreviation conf_path' := (conf_path abspath ID ADD).
Local Abbreviation comparison_set' :=
  (comparison_set abspath current_cyc ID ADD tot_cyc tot_geom).
Local Abbreviation make_row' :=
  (make_row abspath Mol readfile GetRMSD current_cyc invalid ID ADD tot_cyc tot_geom).
Local Abbreviation build_table' :=
  (build_table abspath Mol readfile GetRMSD current_cyc invalid ID ADD tot_cyc tot_geom).
Local Abbreviation placeholder_row' := (placeholder_row current_cyc tot_cyc tot_geom).

Lemma length_leading_cells (g : Z) :
  List.length (leading_cells current_cyc g) = Z.to_nat (current_cyc * 50 + g).
Proof.
  unfold leading_cells, prev. rewrite length_map, length_range. f_equal. lia.
Qed.

(** The cells up to and including the slot's own one are placeholders. *)
Lemma row_prefix_nan (g : Z) (tail : list float) (j : nat) (v : float) :
  (j <= Z.to_nat (prev current_cyc g))%nat ->
  nth_error ((leading_cells current_cyc g ++ [nan]) ++ tail)%list j = Some v ->
  v = nan.
Proof.
  intros Hj Hn. rewrite nth_error_app1 in Hn.
  - eapply all_nan_nth; [|exact Hn]. apply all_nan_app.
    + apply all_nan_map.
    + constructor; [reflexivity|constructor].
  - rewrite length_app, length_leading_cells. unfold prev in Hj. cbn. lia.
Qed.

Lemma row_own_cell (g : Z) (tail : list float) :
  nth_error ((leading_cells current_cyc g ++ [nan]) ++ tail)%list
    (Z.to_nat (prev current_cyc g)) = Some nan.
Proof.
  rewrite <- app_assoc. rewrite nth_error_app2; rewrite length_leading_cells;
    unfold prev; [|lia].
  now rewrite Nat.sub_diag.
Qed.

(** A row of a valid slot fits the table only where the hard-wired 50
    of [prev] agrees with [tot_geom]. *)
Lemma valid_row_fits (g : Z) (tail : list float) (conformers : list string) :
  0 <= current_cyc < tot_cyc -> 0 <= g < tot_geom ->
  comparison_set' g = Ok conformers ->
  List.length tail = List.length conformers ->
  List.length ((leading_cells current_cyc g ++ [nan]) ++ tail)%list
    = Z.to_nat (tot_cyc * tot_geom) ->
  prev current_cyc g = flat_index tot_geom current_cyc g.
Proof.
  intros Hc Hg Hs Ht Hlen.
  rewrite comparison_set_later_slots in Hs. apply rmap_length in Hs.
  rewrite length_later_slots in Hs.
  rewrite !length_app, length_leading_cells, Ht, Hs in Hlen. cbn in Hlen.
  rewrite <- Z2Nat.inj_mul in Hlen by lia.
  unfold prev, flat_index.
  assert (E : (tot_cyc - (current_cyc + 1)) * (tot_geom - 0)
              = tot_cyc * tot_geom - current_cyc * tot_geom - tot_geom) by ring.
  rewrite E in Hlen.
  assert (0 <= tot_cyc * tot_geom - current_cyc * tot_geom - tot_geom) by nia.
  lia.
Qed.

(** Every cell of a row of the table at or before the row's own slot
    is a placeholder. *)
Lemma row_upper_triangular (g : Z) log (row : list float) (j : Z) (v : float) :
  0 <= current_cyc < tot_cyc -> 0 <= g < tot_geom ->
  make_row' g = (log, Ok row) ->
  List.length row = Z.to_nat (tot_cyc * tot_geom) ->
  0 <= j <= flat_index tot_geom current_cyc g ->
  nth_error row (Z.to_nat j) = Some v ->
  v = nan.
Proof.
  intros Hc Hg Hm Hlen Hj Hn.
  destruct (make_row_shape _ _ _ _ _ _ _ _ _ _ _ _ _ Hm)
    as (conf0 & tail & Hp & Hrow & [(Hi & Hpl & _)|(Hi & conformers & Hs & Ht)]).
  - eapply all_nan_nth; [|exact Hn]. rewrite Hpl. apply placeholder_row_all_nan.
  - subst row. eapply row_prefix_nan; [|exact Hn].
    rewrite (valid_row_fits g tail conformers); auto. lia.
Qed.

(** C2: in the table built for a cycle of the run (one of [cycles]),
    cell [(i, j)] is a placeholder whenever the flattened index [j] is
    at most the flattened index of slot [(current_cyc, i)].  This holds
    for every table the builder produces, so in particular for a cycle
    without invalid slots. *)
Theorem table_upper_triangular (log : list event) (df : DataFrame) :
  In current_cyc (range 0 tot_cyc) ->
  build_table' = (log, Ok df) ->
  forall i j v,
    cell df i j = Some v ->
    j <= flat_index tot_geom current_cyc i ->
    v = nan.
Proof.
  intros Hc Hb i j v Hcell Hj. apply In_range in Hc.
  destruct (build_table_rows _ _ _ _ _ _ _ _ _ _ _ _ Hb) as (_ & _ & Hr).
  unfold cell in Hcell.
  destruct (lookup_row i (rows df)) as [row|] eqn:Hrow; [|discriminate].
  destruct (Z.ltb_spec j 0); [discriminate|].
  destruct (Hr _ _ Hrow) as (Hi & Hlen & l & Hm).
  eapply row_upper_triangular; eauto.
Qed.

(** C9: in every row of every table the builder produces, the cell
    appended for the slot itself (at position [prev]) is the
    placeholder, and so is the cell under the slot's own column, the
    flattened index of [(current_cyc, i)]. *)
Theorem self_comparison_is_placeholder (log : list event) (df : DataFrame) :
  build_table' = (log, Ok df) ->
  forall i row,
    lookup_row i (rows df) = Some row ->
    nth_error row (Z.to_nat (prev current_cyc i)) = Some nan /\
    (forall v, cell df i (flat_index tot_geom current_cyc i) = Some v -> v = nan).
Proof.
  intros Hb i row Hrow.
  destruct (build_table_rows _ _ _ _ _ _ _ _ _ _ _ _ Hb) as (_ & _ & Hr).
  destruct (Hr _ _ Hrow) as (Hi & Hlen & l & Hm).
  split.
  - destruct (make_row_shape _ _ _ _ _ _ _ _ _ _ _ _ _ Hm)
      as (conf0 & tail & _ & -> & _).
    apply row_own_cell.
  - intros v Hcell. unfold cell in Hcell. rewrite Hrow in Hcell.
    destruct (Z.ltb_spec (flat_index tot_geom current_cyc i) 0) as [|Hnn];
      [discriminate|].
    assert (Hbound : (Z.to_nat (flat_index tot_geom current_cyc i)
                      < List.length row)%nat).
    { apply nth_error_Some. congruence. }
    rewrite Hlen in Hbound. unfold flat_index in *.
    assert (Hc : 0 <= current_cyc < tot_cyc) by nia.
    eapply row_upper_triangular; eauto. unfold flat_index. lia.
Qed.


Lemma comparison_set_ok (g : Z) (path : Z * Z -> string) :
  (forall c g', conf_path' c g' = Ok (path (c, g'))) ->
  comparison_set' g = Ok (map path (later_slots tot_cyc tot_geom current_cyc g)).
Proof.
  intros H. rewrite comparison_set_later_slots. apply rmap_ok.
  intros [c g'] _. apply H.
Qed.

(** C7: for a valid slot, the list [conformers] the row is compared
    with holds the paths of exactly the slots of [later_slots], in
    that order: the later geometries of the same cycle in ascending
    order, then every geometry of every later cycle, by ascending
    cycle, then geometry; the comparisons are mapped over that list. *)
Theorem comparison_set_is_later_slots (g : Z) (conf0 : string) :
  conf_path' current_cyc g = Ok conf0 ->
  str_in conf0 invalid = false ->
  exists path : Z * Z -> string,
    (forall c g', conf_path' c g' = Ok (path (c, g'))) /\
    comparison_set' g = Ok (map path (later_slots tot_cyc tot_geom current_cyc g)) /\
    make_row' g =
      (pwrmsd <- pool_map (fun target => rmsd' target conf0 invalid)
                   (map path (later_slots tot_cyc tot_geom current_cyc g)) ;;
       ret ((leading_cells current_cyc g ++ [nan]) ++ pwrmsd)%list) /\
    (forall c g',
       In (c, g') (later_slots tot_cyc tot_geom current_cyc g) <->
       (c = current_cyc /\ g < g' < tot_geom) \/
       (current_cyc < c < tot_cyc /\ 0 <= g' < tot_geom)) /\
    StronglySorted slot_lt (later_slots tot_cyc tot_geom current_cyc g).
Proof.
  intros Hp Hi.
  destruct (conf_path_total abspath ID ADD _ _ _ Hp) as (path & Hpath).
  exists path. split; [exact Hpath|]. split; [now apply comparison_set_ok|].
  split; [|split].
  - rewrite (make_row_valid _ _ _ _ _ _ _ _ _ _ _ _ Hp Hi).
    rewrite (comparison_set_ok g path Hpath). unfold lift.
    now rewrite bind_ok_nil.
  - intros c g'. apply In_later_slots.
  - apply later_slots_sorted.
Qed.

(** ** The builder ends well on 50 geometries per cycle *)



Hypothesis fifty : tot_geom = 50.
Hypothesis cycle_of_the_run : 0 <= current_cyc < tot_cyc.
Hypothesis valid_files_readable :
  forall p, str_in p invalid = false -> readfile p <> None.




End TableProperties.

(* ================================================================== *)
(** * Properties of the invalid-set scanner *)

Lemma concat_singletons {A B} (q : A -> bool) (F : A -> B) (l : list A) :
  List.concat (map (fun x => if q x then [F x] else []) l) = map F (filter q l).
Proof.
  induction l as [|x l IH]; cbn; [reflexivity|].
  destruct (q x); cbn; now rewrite IH.
Qed.

Lemma concat_map_flat_map {A B C} (f : B -> C) (h : A -> list B) (cs : list A) :
  List.concat (map (fun c => map f (h c)) cs) = map f (flat_map h cs).
Proof.
  induction cs as [|c cs IH]; cbn; [reflexivity|].
  now rewrite map_app, IH.
Qed.

Lemma StronglySorted_NoDup {A} (R : A -> A -> Prop) (l : list A) :
  (forall x, ~ R x x) -> StronglySorted R l -> NoDup l.
Proof.
  intros Hirr. induction 1 as [|a l Hs IH Ha]; constructor; [|assumption].
  intros Hin. rewrite Forall_forall in Ha. exact (Hirr a (Ha a Hin)).
Qed.

Lemma expected_pairs_sorted (tot_cyc tot_geom : Z) :
  StronglySorted slot_lt (expected_pairs tot_cyc tot_geom).
Proof.
  unfold expected_pairs.
  eapply StronglySorted_flat_map; [| |apply StronglySorted_range].
  - intros c. eapply StronglySorted_map_mono; [|apply StronglySorted_range].
    intros x y H. right. cbn. lia.
  - intros c c' x y H Hx Hy. apply in_map_iff in Hx, Hy.
    destruct Hx as (g & <- & _). destruct Hy as (g' & <- & _). now left.
Qed.

Lemma NoDup_expected_pairs (tot_cyc tot_geom : Z) :
  NoDup (expected_pairs tot_cyc tot_geom).
Proof.
  eapply StronglySorted_NoDup; [|apply expected_pairs_sorted].
  intros [c g]. unfold slot_lt. cbn. lia.
Qed.

Lemma In_expected_pairs (tot_cyc tot_geom : Z) (s : Z * Z) :
  In s (expected_pairs tot_cyc tot_geom) <->
  1 <= fst s <= tot_cyc /\ 1 <= snd s <= tot_geom.
Proof.
  unfold expected_pairs. rewrite in_flat_map. split.
  - intros (c & Hc & Hs). apply in_map_iff in Hs. destruct Hs as (g & <- & Hg).
    apply In_range in Hc, Hg. cbn. lia.
  - intros (Hc & Hg). exists (fst s). split; [apply In_range; lia|].
    apply in_map_iff. exists (snd s). split; [now destruct s|].
    apply In_range. lia.
Qed.




Section Scanner.

Variable abspath : string -> string.
Variable glob : string -> list string.
Variables ID ADD : string.

Local Abbreviation find_invalid_confs' := (find_invalid_confs abspath glob).
Local Abbreviation result_file' := (result_file abspath ID ADD).
Local Abbreviation input_path' := (input_path abspath ID ADD).

(** The scanner returns the input paths of the pairs whose result file
    is not in the listing, in the order of the pairs. *)
Lemma find_invalid_confs_spec (w : world) (save : bool) (tot_cyc tot_geom : Z) :
  takes_two_fields (tsv_template abspath ID ADD) ->
  exists nm : Z * Z -> string,
    (forall s, result_file' s = Ok (nm s)) /\
    snd (find_invalid_confs' w ID ADD save tot_cyc tot_geom) =
    Ok (map input_path'
          (filter (fun s =>
                     negb (str_in (nm s)
                             (sort (glob (join (tsvpath abspath) ["*.tsv"])))))
             (expected_pairs tot_cyc tot_geom))).
Proof.
  intros (name & Hname).
  destruct (result_file_shape abspath ID ADD _ _ _ Hname) as (J' & HJ).
  exists (fun s => J' ++ pct_0d 4 (fst s) ++ "_geom" ++ pct_0d 2 (snd s) ++ ".tsv").
  split; [intros s; apply HJ|].
  unfold find_invalid_confs.
  set (tsvs := sort (glob (join (tsvpath abspath) ["*.tsv"]))).
  set (q := fun s : Z * Z =>
              negb (str_in (J' ++ pct_0d 4 (fst s) ++ "_geom" ++
                                  pct_0d 2 (snd s) ++ ".tsv") tsvs)).
  rewrite rmap_map.
  rewrite (rmap_ok _ (fun c => map (fun g => if q (c, g) then [input_path' (c, g)] else [])
                                 (range 1 (tot_geom + 1)))).
  2:{ intros c _. rewrite rmap_map. apply rmap_ok. intros g _.
      unfold missing_result. rewrite HJ. cbn [rbind]. unfold q. cbn [fst snd].
      now destruct (negb _). }
  assert (E : List.concat (List.concat
                (map (fun c => map (fun g => if q (c, g) then [input_path' (c, g)] else [])
                                (range 1 (tot_geom + 1)))
                   (range 1 (tot_cyc + 1))))
              = map input_path' (filter q (expected_pairs tot_cyc tot_geom))).
  { rewrite <- concat_singletons. unfold expected_pairs.
    rewrite <- concat_map_flat_map. f_equal. f_equal. apply map_ext.
    intros c. now rewrite map_map. }
  rewrite E. now destruct save.
Qed.



End Scanner.

(* ================================================================== *)
(** * Properties of the driver *)

Lemma isfile_write_file (w : world) (p q : string) (f : file) :
  isfile (write_file w p f) q = (String.eqb p q || isfile w q)%bool.
Proof. reflexivity. Qed.

Lemma pkl_path_shape (writedir ID ADD : string) (c : Z) :
  pkl_path writedir ID ADD c =
  join2 writedir (ID ++ "_" ++ ADD ++ "_cycle") ++ pct_0d 4 (c + 1) ++ "_pwrmsd.pkl".
Proof.
  unfold pkl_path, join. cbn [fold_left].
  rewrite <- join2_append by apply append_nonempty.
  f_equal. rewrite !append_assoc. reflexivity.
Qed.

(** The artifacts of distinct cycles are distinct files. *)
Lemma pkl_path_inj (writedir ID ADD : string) (c c' : Z) :
  pkl_path writedir ID ADD c = pkl_path writedir ID ADD c' -> c = c'.
Proof.
  rewrite !pkl_path_shape. intros H.
  apply append_inv_head, append_inv_tail, pct_0d_inj in H. lia.
Qed.

(** The list of invalid conformers is not the artifact of a cycle. *)
Lemma pkl_path_not_txt (writedir ID ADD : string) (c : Z) :
  "invalid_conf_paths.txt" <> pkl_path writedir ID ADD c.
Proof.
  rewrite pkl_path_shape.
  change "invalid_conf_paths.txt" with ("invalid_conf_paths.tx" ++ "t").
  change "_pwrmsd.pkl" with ("_pwrmsd.pk" ++ "l").
  rewrite <- !append_assoc. apply append_last_neq. discriminate.
Qed.

Lemma find_invalid_confs_world (abspath : string -> string)
    (glob : string -> list string) (w : world) (ID ADD : string) (save : bool)
    (tot_cyc tot_geom : Z) :
  find_invalid_confs abspath glob w ID ADD save tot_cyc tot_geom =
  match snd (find_invalid_confs abspath glob [] ID ADD save tot_cyc tot_geom) with
  | Ok conformers =>
      ((if save then write_file w "invalid_conf_paths.txt" (TextFile conformers)
        else w), Ok conformers)
  | Raise e => (w, Raise e)
  end.
Proof.
  unfold find_invalid_confs.
  destruct (rmap _ (map (pct_0d 4) (range 1 (tot_cyc + 1)))); reflexivity.
Qed.

Section Driver.

Variable abspath : string -> string.
Variable glob : string -> list string.
Variable Mol : Type.
Variable readfile : string -> option Mol.
Variable GetRMSD : Mol -> Mol -> float.
Variables ID ADD : string.
Variables tot_cyc tot_geom : Z.

Local Abbreviation artifact := (pkl_path (main_writedir abspath) ID ADD).
Local Abbreviation run_cycles' cs invalid :=
  (run_cycles abspath Mol readfile GetRMSD cs invalid ID ADD tot_cyc tot_geom).
Local Abbreviation main' :=
  (main abspath glob Mol readfile GetRMSD ID ADD tot_cyc tot_geom).

(** The builder itself logs comparisons and alignments only. *)
Lemma build_table_events (c : Z) (invalid : list string) (e : event) :
  In e (fst (build_table abspath Mol readfile GetRMSD c invalid ID ADD
               tot_cyc tot_geom)) ->
  forall c', e <> Build c'.
Proof.
  intros H c' ->. unfold build_table in H. apply fill_rows_log in H.
  destruct H as (g & _ & H). apply make_row_log in H.
  destruct H as (conf0 & t & _ & _ & [E|E]); discriminate.
Qed.

(** What a call of the builder does to the files. *)
Lemma pwrmsd_writer_multinode_world (c : Z) (writedir : string)
    (invalid : list string) (w w' : world) log r :
  pwrmsd_writer_multinode abspath Mol readfile GetRMSD c writedir invalid ID ADD
    tot_cyc tot_geom w = (w', (log, r)) ->
  log = fst (build_table abspath Mol readfile GetRMSD c invalid ID ADD
               tot_cyc tot_geom) /\
  match r with
  | Ok _ => exists df, w' = write_file w (pkl_path writedir ID ADD c) (PickleFile df)
  | Raise _ => w' = w
  end.
Proof.
  unfold pwrmsd_writer_multinode.
  destruct (build_table _ _ _ _ _ _ _ _ _ _) as [l [df|e]]; intros H;
    inversion H; subst; cbn; split; auto. now exists df.
Qed.

Lemma run_cycles_spec (cs : list Z) (invalid : list string) :
  NoDup cs ->
  forall (w w' : world) log r,
    run_cycles' cs invalid w = (w', (log, r)) ->
    (forall p, isfile w p = true -> isfile w' p = true) /\
    (forall c, In (Build c) log -> In c cs /\ isfile w (artifact c) = false) /\
    (r = Ok tt ->
     (forall c, In c cs -> isfile w (artifact c) = false -> In (Build c) log) /\
     (forall c, In c cs -> isfile w' (artifact c) = true)).
Proof.
  induction 1 as [|c0 cs Hc0 Hnd IH]; intros w w' log r H; cbn [run_cycles] in H.
  - inversion H; subst. repeat split; auto; try contradiction.
  - destruct (isfile w (artifact c0)) eqn:Hex.
    + destruct (IH _ _ _ _ H) as (Hmono & Hbuilt & Hdone).
      split; [assumption|]. split.
      * intros c Hc. destruct (Hbuilt c Hc). auto with datatypes.
      * intros ->. destruct (Hdone eq_refl) as (Hd1 & Hd2). split.
        -- intros c [<-|Hc] Hf; [congruence|auto].
        -- intros c [<-|Hc]; auto.
    + destruct (pwrmsd_writer_multinode _ _ _ _ _ _ _ _ _ _ _ w)
        as [w1 [l1 r1]] eqn:Hb.
      apply pwrmsd_writer_multinode_world in Hb. destruct Hb as (Hl1 & Hw1).
      destruct r1 as [u|e].
      * destruct Hw1 as (df & ->).
        destruct (run_cycles' cs invalid (write_file w (artifact c0) (PickleFile df)))
          as [w2 [l2 r2]] eqn:Hrest.
        inversion H; subst w2 log r2. clear H.
        destruct (IH _ _ _ _ Hrest) as (Hmono & Hbuilt & Hdone).
        split.
        { intros p Hp. apply Hmono. rewrite isfile_write_file, Hp.
          apply orb_true_r. }
        split.
        { intros c [E|Hc].
          - inversion E; subst. auto with datatypes.
          - apply in_app_or in Hc. destruct Hc as [Hc|Hc].
            + subst l1. exfalso. eapply build_table_events; eauto.
            + destruct (Hbuilt c Hc) as (Hin & Hf).
              rewrite isfile_write_file in Hf. apply orb_false_iff in Hf.
              split; [now right|tauto]. }
        intros ->. destruct (Hdone eq_refl) as (Hd1 & Hd2). split.
        { intros c [<-|Hc] Hf; [now left|].
          right. apply in_or_app. right. apply Hd1; [assumption|].
          rewrite isfile_write_file, Hf, orb_false_r.
          apply String.eqb_neq. intros E. apply pkl_path_inj in E. congruence. }
        { intros c [<-|Hc]; [|auto].
          apply Hmono. rewrite isfile_write_file, String.eqb_refl. reflexivity. }
      * inversion H; subst. split; [auto|]. split.
        { intros c [E|Hc].
          - inversion E; subst. auto with datatypes.
          - exfalso. eapply build_table_events; eauto. }
        discriminate.
Qed.

(** A range whose artifacts are all there is skipped entirely. *)
Lemma run_cycles_all_present (cs : list Z) (invalid : list string) (w : world) :
  (forall c, In c cs -> isfile w (artifact c) = true) ->
  run_cycles' cs invalid w = (w, ([], Ok tt)).
Proof.
  induction cs as [|c cs IH]; intros H; cbn [run_cycles]; [reflexivity|].
  rewrite (H c) by now left. apply IH. intros c' Hc'. apply H. now right.
Qed.

(** C8: the driver calls the builder only for cycles of the range
    [start, stop) whose artifact does not exist yet; in a run that
    comes to its end it calls it for every such cycle; and a second run
    over the same range, on the files the first one left, calls the
    builder for none and causes no comparison and no alignment. *)
Theorem driver_skips_existing_artifacts (start stop : Z) (w w' : world)
    (log : list event) (r : result unit) :
  main' start stop w = (w', (log, r)) ->
  (forall c, In (Build c) log ->
     start <= c < stop /\ isfile w (artifact c) = false) /\
  (r = Ok tt ->
   (forall c, start <= c < stop ->
      (In (Build c) log <-> isfile w (artifact c) = false)) /\
   exists w'', main' start stop w' = (w'', ([], Ok tt))).
Proof.
  unfold main. rewrite find_invalid_confs_world.
  destruct (snd (find_invalid_confs abspath glob [] ID ADD true tot_cyc tot_geom))
    as [invalid|e] eqn:Hscan.
  2:{ intros H. inversion H; subst. split; [intros c []|discriminate]. }
  intros H.
  destruct (run_cycles_spec _ invalid (NoDup_range start stop) _ _ _ _ H)
    as (Hmono & Hbuilt & Hdone).
  assert (Htxt : forall c,
             isfile (write_file w "invalid_conf_paths.txt" (TextFile invalid))
               (artifact c) = isfile w (artifact c)).
  { intros c. rewrite isfile_write_file.
    destruct (String.eqb_spec "invalid_conf_paths.txt" (artifact c)) as [E|E];
      [|reflexivity].
    now apply pkl_path_not_txt in E. }
  split.
  - intros c Hc. destruct (Hbuilt c Hc) as (Hin & Hf).
    apply In_range in Hin. now rewrite Htxt in Hf.
  - intros ->. destruct (Hdone eq_refl) as (Hd1 & Hd2). split.
    + intros c Hc. split.
      * intros Hb. destruct (Hbuilt c Hb) as (_ & Hf). now rewrite Htxt in Hf.
      * intros Hf. apply Hd1; [now apply In_range|now rewrite Htxt].
    + rewrite find_invalid_confs_world, Hscan.
      eexists. apply run_cycles_all_present.
      intros c Hc. rewrite isfile_write_file. rewrite Hd2 by assumption.
      apply orb_true_r.
Qed.

End Driver.

(* ================================================================== *)
(** * The hard-wired 50 *)

(** The first loop of a row appends [current_cyc * 50 + current_geom]
    cells, whatever [tot_geom] is. *)
Lemma leading_cells_count (current_cyc current_geom : Z) :
  List.length (leading_cells current_cyc current_geom)
  = Z.to_nat (current_cyc * 50 + current_geom).
Proof. apply length_leading_cells. Qed.

(** With 50 geometries per cycle this is the number of slots before
    the row's own. *)
Lemma leading_cells_count_50 (current_cyc current_geom : Z) :
  List.length (leading_cells current_cyc current_geom)
  = Z.to_nat (flat_index 50 current_cyc current_geom).
Proof. rewrite leading_cells_count. reflexivity. Qed.

(** C1: with 2 geometries per cycle, the row of the first geometry of
    cycle 1 starts with 50 placeholder cells before the cell of the
    slot itself, where 2 slots precede it in flattened order. *)
Theorem leading_cells_of_cycle_1_of_2_geometries :
  List.length (leading_cells 1 0) = 50%nat /\
  Z.to_nat (flat_index 2 1 0) = 2%nat.
Proof. split; reflexivity. Qed.

Lemma length_placeholder_row (current_cyc tot_cyc tot_geom g : Z) :
  0 <= prev current_cyc g ->
  List.length (placeholder_row current_cyc tot_cyc tot_geom g)
  = Z.to_nat (Z.max (prev current_cyc g + 1) (tot_cyc * tot_geom)).
Proof.
  intros H. unfold placeholder_row.
  rewrite !length_app, length_map, length_range, length_leading_cells.
  unfold prev in *. cbn [List.length]. lia.
Qed.

(** With 50 geometries per cycle the placeholder row of a slot of the
    run fills the table's columns exactly. *)
Lemma length_placeholder_row_50 (current_cyc tot_cyc g : Z) :
  0 <= current_cyc < tot_cyc -> 0 <= g < 50 ->
  List.length (placeholder_row current_cyc tot_cyc 50 g) = Z.to_nat (tot_cyc * 50).
Proof.
  intros Hc Hg. rewrite length_placeholder_row by (unfold prev; lia).
  unfold prev. f_equal. lia.
Qed.

(** C10: with 3 cycles of 2 geometries, the row assembled for the
    invalid first slot of cycle 1 has 51 cells, not 6: the 50 leading
    cells and the slot's own one already pass the 6 columns, and the
    trailing fill is empty.  The frame refuses the row, so the builder
    ends with the exception and writes no table. *)
Theorem placeholder_row_of_cycle_1_of_2_geometries :
  conf_path example_abspath "X" "+H" 1 0 = Ok (example_conf 1 0) /\
  str_in (example_conf 1 0) [example_conf 1 0] = true /\
  (exists row,
     make_row example_abspath string example_readfile example_GetRMSD
       1 [example_conf 1 0] "X" "+H" 3 2 0 = ([], Ok row) /\
     List.length row = 51%nat) /\
  Z.to_nat (3 * 2) = 6%nat /\
  build_table example_abspath string example_readfile example_GetRMSD
    1 [example_conf 1 0] "X" "+H" 3 2 = ([], Raise MismatchedColumns).
Proof.
  split; [reflexivity|]. split; [reflexivity|]. split.
  - eexists. split; [vm_compute; reflexivity|reflexivity].
  - split; [reflexivity|]. vm_compute. reflexivity.
Qed.

(** The same cycle with every conformer valid: the first row has 54
    cells for 6 columns, and no table is produced either. *)
Example valid_rows_of_cycle_1_of_2_geometries :
  snd (build_table example_abspath string example_readfile example_GetRMSD
         1 [] "X" "+H" 3 2) = Raise MismatchedColumns /\
  (exists log row,
     make_row example_abspath string example_readfile example_GetRMSD
       1 [] "X" "+H" 3 2 0 = (log, Ok row) /\ List.length row = 54%nat).
Proof.
  split; [vm_compute; reflexivity|].
  eexists _, _. split; [vm_compute; reflexivity|reflexivity].
Qed.

(* ================================================================== *)
(** * The properties at work on the example *)

Lemma rmsd_branches_on_target_witness :
  (str_in "t.xyz" ["r.xyz"] = true ->
   rmsd string example_readfile example_GetRMSD "t.xyz" "r.xyz" ["r.xyz"]
   = ([Compare "t.xyz" "r.xyz"], Ok nan)) /\
  (str_in "t.xyz" ["r.xyz"] = false ->
   rmsd string example_readfile example_GetRMSD "t.xyz" "r.xyz" ["r.xyz"]
   = match example_readfile "r.xyz", example_readfile "t.xyz" with
     | Some a, Some b =>
         ([Compare "t.xyz" "r.xyz"; Align "r.xyz" "t.xyz"], Ok (example_GetRMSD a b))
     | _, _ => ([Compare "t.xyz" "r.xyz"], Raise ReadError)
     end) /\
  (forall invalid',
     str_in "t.xyz" invalid' = str_in "t.xyz" ["r.xyz"] ->
     rmsd string example_readfile example_GetRMSD "t.xyz" "r.xyz" invalid'
     = rmsd string example_readfile example_GetRMSD "t.xyz" "r.xyz" ["r.xyz"]).
Proof.
  exact (rmsd_branches_on_target string example_readfile example_GetRMSD
           "t.xyz" "r.xyz" ["r.xyz"]).
Defined.

Lemma table_upper_triangular_witness :
  In 0 (range 0 3) /\
  example_build [] = (fst (example_build []), Ok example_table) /\
  cell example_table 1 1 = Some nan /\
  1 <= flat_index 2 0 1 /\
  nan = nan.
Proof.
  assert (H1 : In 0 (range 0 3)) by (apply In_range; lia).
  assert (H2 : example_build [] = (fst (example_build []), Ok example_table))
    by (vm_compute; reflexivity).
  assert (H3 : cell example_table 1 1 = Some nan) by reflexivity.
  assert (H4 : 1 <= flat_index 2 0 1) by (unfold flat_index; lia).
  split; [exact H1|]. split; [exact H2|]. split; [exact H3|]. split; [exact H4|].
  exact (table_upper_triangular example_abspath string example_readfile
           example_GetRMSD 0 [] "X" "+H" 3 2 _ _ H1 H2 1 1 nan H3 H4).
Defined.

Lemma self_comparison_is_placeholder_witness :
  example_build [] = (fst (example_build []), Ok example_table) /\
  lookup_row 1 (rows example_table) = Some [nan; nan; 1.5; 1.5; 1.5; 1.5]%float /\
  nth_error [nan; nan; 1.5; 1.5; 1.5; 1.5]%float (Z.to_nat (prev 0 1)) = Some nan /\
  (forall v, cell example_table 1 (flat_index 2 0 1) = Some v -> v = nan).
Proof.
  assert (H1 : example_build [] = (fst (example_build []), Ok example_table))
    by (vm_compute; reflexivity).
  assert (H2 : lookup_row 1 (rows example_table)
               = Some [nan; nan; 1.5; 1.5; 1.5; 1.5]%float) by reflexivity.
  split; [exact H1|]. split; [exact H2|].
  exact (self_comparison_is_placeholder example_abspath string example_readfile
           example_GetRMSD 0 [] "X" "+H" 3 2 _ _ H1 1 _ H2).
Defined.


Lemma comparison_set_is_later_slots_witness :
  conf_path example_abspath "X" "+H" 0 0 = Ok (example_conf 0 0) /\
  str_in (example_conf 0 0) [] = false /\
  exists path : Z * Z -> string,
    (forall c g', conf_path example_abspath "X" "+H" c g' = Ok (path (c, g'))) /\
    comparison_set example_abspath 0 "X" "+H" 3 2 0
      = Ok (map path (later_slots 3 2 0 0)) /\
    make_row example_abspath string example_readfile example_GetRMSD
      0 [] "X" "+H" 3 2 0 =
      (pwrmsd <- pool_map (fun target =>
                             rmsd string example_readfile example_GetRMSD
                               target (example_conf 0 0) [])
                   (map path (later_slots 3 2 0 0)) ;;
       ret ((leading_cells 0 0 ++ [nan]) ++ pwrmsd)%list) /\
    (forall c g',
       In (c, g') (later_slots 3 2 0 0) <->
       (c = 0 /\ 0 < g' < 2) \/ (0 < c < 3 /\ 0 <= g' < 2)) /\
    StronglySorted slot_lt (later_slots 3 2 0 0).
Proof.
  assert (H1 : conf_path example_abspath "X" "+H" 0 0 = Ok (example_conf 0 0))
    by reflexivity.
  assert (H2 : str_in (example_conf 0 0) [] = false) by reflexivity.
  split; [exact H1|]. split; [exact H2|].
  exact (comparison_set_is_later_slots example_abspath string example_readfile
           example_GetRMSD 0 [] "X" "+H" 3 2 0 _ H1 H2).
Defined.

Example comparison_set_ex :
  comparison_set example_abspath 0 "X" "+H" 3 2 0
  = Ok [example_conf 0 1; example_conf 1 0; example_conf 1 1;
        example_conf 2 0; example_conf 2 1].
Proof. vm_compute. reflexivity. Qed.

Example later_slots_ex :
  later_slots 3 2 0 0 = [(0, 1); (1, 0); (1, 1); (2, 0); (2, 1)].
Proof. reflexivity. Qed.




Example scan_with_one_result_file_ex :
  snd (find_invalid_confs example_abspath example_one_glob [] "X" "+H" false 3 2)
  = Ok [example_conf 0 0; example_conf 0 1; example_conf 1 1;
        example_conf 2 0; example_conf 2 1].
Proof. vm_compute. reflexivity. Qed.

Lemma driver_skips_existing_artifacts_witness :
  example_main 0 1 [] = (fst (example_main 0 1 []),
                         (fst (snd (example_main 0 1 [])), Ok tt)) /\
  (forall c, In (Build c) (fst (snd (example_main 0 1 []))) ->
     0 <= c < 1 /\
     isfile [] (pkl_path (main_writedir example_abspath) "X" "+H" c) = false) /\
  (Ok tt = Ok tt ->
   (forall c, 0 <= c < 1 ->
      (In (Build c) (fst (snd (example_main 0 1 []))) <->
       isfile [] (pkl_path (main_writedir example_abspath) "X" "+H" c) = false)) /\
   exists w'', example_main 0 1 (fst (example_main 0 1 [])) = (w'', ([], Ok tt))).
Proof.
  assert (H1 : example_main 0 1 [] = (fst (example_main 0 1 []),
                                      (fst (snd (example_main 0 1 [])), Ok tt)))
    by (vm_compute; reflexivity).
  split; [exact H1|].
  exact (driver_skips_existing_artifacts example_abspath example_full_glob string
           example_readfile example_GetRMSD "X" "+H" 3 2 0 1 [] _ _ _ H1).
Defined.

Example example_main_builds_cycle_0 :
  In (Build 0) (fst (snd (example_main 0 1 []))) /\
  snd (example_main 0 1 (fst (example_main 0 1 []))) = ([], Ok tt).
Proof. split; [left; reflexivity|vm_compute; reflexivity]. Qed.

(* ================================================================== *)
(** * More about the invalid-set scanner *)

Lemma str_in_In (x : string) (l : list string) : str_in x l = true <-> In x l.
Proof.
  unfold str_in. rewrite existsb_exists. split.
  - intros (y & Hy & E). apply String.eqb_eq in E. now subst.
  - intros H. exists x. split; [assumption|apply String.eqb_refl].
Qed.

Lemma In_insert_sorted (x y : string) (l : list string) :
  In y (insert_sorted x l) <-> y = x \/ In y l.
Proof.
  induction l as [|z l IH]; cbn; [intuition|].
  destruct (String.leb x z); cbn; [intuition|]. rewrite IH. intuition.
Qed.

(** Sorting keeps the members of the listing. *)
Lemma In_sort (y : string) (l : list string) : In y (sort l) <-> In y l.
Proof.
  induction l as [|x l IH]; cbn; [reflexivity|].
  rewrite In_insert_sorted, IH. intuition.
Qed.

Lemma str_in_sort (y : string) (l : list string) : str_in y (sort l) = str_in y l.
Proof.
  destruct (str_in y l) eqn:E.
  - apply (proj2 (str_in_In _ _)). apply (proj2 (In_sort _ _)).
    now apply (proj1 (str_in_In _ _)).
  - destruct (str_in y (sort l)) eqn:E'; [|reflexivity].
    apply (proj1 (str_in_In _ _)) in E'. apply (proj1 (In_sort _ _)) in E'.
    apply (proj2 (str_in_In _ _)) in E'. congruence.
Qed.

Lemma concat_nils {A} (l : list (list A)) :
  (forall x, In x l -> x = []) -> List.concat l = [].
Proof.
  induction l as [|x l IH]; intros H; cbn; [reflexivity|].
  rewrite (H x) by now left. apply IH. intros y Hy. apply H. now right.
Qed.

(** ** The path of an input conformer *)

Lemma digits_nonempty (n : N) : digits n <> "".
Proof.
  unfold digits. destruct (N.to_uint n); cbn; discriminate.
Qed.

Lemma ends_with_sep_append (s t : string) :
  t <> "" -> ends_with_sep (s ++ t) = ends_with_sep t.
Proof.
  intros Ht. induction s as [|c s IH]; [reflexivity|].
  cbn [append]. cbn [ends_with_sep]. rewrite IH.
  destruct (s ++ t) eqn:E; [|reflexivity].
  destruct s; cbn in E; [contradiction|discriminate].
Qed.

Lemma ends_with_sep_numeral (s : string) :
  number_of s <> None -> ends_with_sep s = false.
Proof.
  unfold number_of. induction s as [|c s IH]; intros H; [reflexivity|].
  cbn [ends_with_sep]. cbn in H.
  destruct (NilEmpty.uint_of_string s) as [d|] eqn:E; [|now elim H].
  destruct s as [|c' s'].
  - destruct (Ascii.eqb_spec c "/"); [subst; now elim H|reflexivity].
  - apply IH. discriminate.
Qed.

(** A formatted number is not empty and does not end with a slash. *)
Lemma pct_0d_tail (w : nat) (x : Z) :
  pct_0d w x <> "" /\ ends_with_sep (pct_0d w x) = false.
Proof.
  assert (Hz : forall k n, zfill k (digits n) <> ""
                           /\ ends_with_sep (zfill k (digits n)) = false).
  { intros k n. unfold zfill. split.
    - intros E. apply (f_equal String.length) in E.
      rewrite length_append in E. cbn in E.
      pose proof (digits_nonempty n). destruct (digits n); [congruence|cbn in E; lia].
    - rewrite ends_with_sep_append by apply digits_nonempty.
      apply ends_with_sep_numeral. rewrite number_of_digits. discriminate. }
  unfold pct_0d. destruct (x <? 0); [|apply Hz].
  split; [discriminate|].
  destruct (Hz (w - 1)%nat (Z.abs_N x)) as (Hne & He).
  cbn [ends_with_sep]. destruct (zfill (w - 1) (digits (Z.abs_N x))); congruence.
Qed.

(** The directory part that [join] puts before a relative component. *)
Lemma join2_relative (a b : string) :
  starts_with_sep b = false ->
  join2 a b = (if (String.eqb a "" || ends_with_sep a)%bool then a else a ++ "/") ++ b.
Proof.
  intros H. unfold join2. rewrite H.
  destruct (String.eqb a "" || ends_with_sep a)%bool; [reflexivity|].
  now rewrite append_assoc.
Qed.

Lemma conformer_xyz_shape (abspath : string -> string) (ID ADD : string) (s : Z * Z) :
  input_path abspath ID ADD s =
  if starts_with_sep (ID ++ "_" ++ ADD ++ "_")
  then (ID ++ "_" ++ ADD ++ "_") ++ pct_0d 4 (fst s) ++ "_geom" ++ pct_0d 2 (snd s) ++ ".xyz"
  else
    ((if (String.eqb (geomdir abspath ID ADD) "" || ends_with_sep (geomdir abspath ID ADD))%bool
      then geomdir abspath ID ADD else geomdir abspath ID ADD ++ "/") ++ "cycle_")
    ++ pct_0d 4 (fst s) ++ "_geom" ++ pct_0d 2 (snd s) ++ "/"
    ++ (ID ++ "_" ++ ADD ++ "_") ++ pct_0d 4 (fst s) ++ "_geom" ++ pct_0d 2 (snd s) ++ ".xyz".
Proof.
  unfold input_path, conformer_xyz, join. cbn [fold_left].
  set (c := pct_0d 4 (fst s)). set (g := pct_0d 2 (snd s)).
  set (P := ID ++ "_" ++ ADD ++ "_").
  assert (EP : ID ++ "_" ++ ADD ++ "_" ++ c ++ "_geom" ++ g ++ ".xyz"
               = P ++ c ++ "_geom" ++ g ++ ".xyz").
  { unfold P. rewrite !append_assoc. reflexivity. }
  rewrite EP.
  assert (HP : P <> "") by apply append_nonempty.
  rewrite (join2_relative _ ("cycle_" ++ c ++ "_geom" ++ g)) by reflexivity.
  set (G := if (_ || _)%bool then _ else _).
  unfold join2 at 1. rewrite starts_with_sep_append by assumption.
  destruct (starts_with_sep P); [reflexivity|].
  assert (Hg : g <> "" /\ ends_with_sep g = false) by apply pct_0d_tail.
  destruct Hg as (Hg1 & Hg2).
  assert (He : ends_with_sep (G ++ "cycle_" ++ c ++ "_geom" ++ g) = false).
  { replace (G ++ "cycle_" ++ c ++ "_geom" ++ g)
      with ((G ++ "cycle_" ++ c ++ "_geom") ++ g)
      by (rewrite !append_assoc; reflexivity).
    now rewrite ends_with_sep_append. }
  assert (Hn : String.eqb (G ++ "cycle_" ++ c ++ "_geom" ++ g) "" = false).
  { apply String.eqb_neq. apply append_nonempty. }
  rewrite He, Hn. cbn [orb]. rewrite !append_assoc. reflexivity.
Qed.

(** Distinct pairs of non-negative numbers have distinct input paths. *)
Lemma input_path_inj (abspath : string -> string) (ID ADD : string) (s s' : Z * Z) :
  0 <= fst s -> 0 <= snd s -> 0 <= fst s' -> 0 <= snd s' ->
  input_path abspath ID ADD s = input_path abspath ID ADD s' -> s = s'.
Proof.
  intros H1 H2 H3 H4. rewrite !conformer_xyz_shape.
  assert (Hnum : forall w x, 0 <= x -> number_of (pct_0d w x) <> None)
    by (intros w x Hx; rewrite number_of_pct_0d by assumption; discriminate).
  destruct (starts_with_sep (ID ++ "_" ++ ADD ++ "_")); intros E.
  - apply append_inv_head in E.
    apply (digits_end_at_separator "_") in E; auto; [|intros []; reflexivity].
    destruct E as (Ec & Eg). inversion Eg as [Eg'].
    apply (digits_end_at_separator ".") in Eg'; auto; [|intros []; reflexivity].
    destruct Eg' as (Eg' & _).
    apply pct_0d_inj in Ec, Eg'. destruct s, s'; cbn in *; congruence.
  - apply append_inv_head in E.
    apply (digits_end_at_separator "_") in E; auto; [|intros []; reflexivity].
    destruct E as (Ec & Eg). inversion Eg as [Eg'].
    apply (digits_end_at_separator "/") in Eg'; auto; [|intros []; reflexivity].
    destruct Eg' as (Eg' & _).
    apply pct_0d_inj in Ec, Eg'. destruct s, s'; cbn in *; congruence.
Qed.

Lemma filter_none {A} (f : A -> bool) (l : list A) :
  (forall x, In x l -> f x = false) -> filter f l = [].
Proof.
  induction l as [|x l IH]; intros H; cbn; [reflexivity|].
  rewrite (H x) by now left. apply IH. intros y Hy. apply H. now right.
Qed.

Section ScannerMore.

Variable abspath : string -> string.
Variable glob : string -> list string.
Variables ID ADD : string.

Local Abbreviation scan w save tot_cyc tot_geom :=
  (find_invalid_confs abspath glob w ID ADD save tot_cyc tot_geom).
Local Abbreviation listing := (glob (join (tsvpath abspath) ["*.tsv"])).
Local Abbreviation input_path' := (input_path abspath ID ADD).
Local Abbreviation result_name' := (result_name abspath ID ADD).

(** The pairs the scanner reports: those whose result file is not in
    the listing. *)
Lemma find_invalid_confs_listing (w : world) (save : bool) (tot_cyc tot_geom : Z) :
  takes_two_fields (tsv_template abspath ID ADD) ->
  snd (scan w save tot_cyc tot_geom) =
  Ok (map input_path'
        (filter (fun s => negb (str_in (result_name' s) listing))
           (expected_pairs tot_cyc tot_geom))).
Proof.
  intros Ht.
  destruct (find_invalid_confs_spec abspath glob ID ADD w save tot_cyc tot_geom Ht)
    as (nm & Hnm & ->).
  f_equal. f_equal. apply filter_ext. intros s.
  unfold result_name. rewrite Hnm. now rewrite str_in_sort.
Qed.

Lemma format_needs_template (c g : string) :
  ~ takes_two_fields (tsv_template abspath ID ADD) ->
  format (tsv_template abspath ID ADD) [c; g] = Raise FormatError.
Proof.
  intros Hn. unfold format.
  destruct (format_fields (tsv_template abspath ID ADD) [c; g]) as [name|] eqn:E;
    [|reflexivity].
  exfalso. apply Hn. unfold takes_two_fields, format.
  destruct (format_fields (tsv_template abspath ID ADD) [""; ""]) as [n0|] eqn:E0;
    [now exists n0|].
  eapply format_fields_arity in E0; [rewrite E0 in E; discriminate|apply le_n|].
  reflexivity.
Qed.

Lemma scan_without_pairs (w : world) (save : bool) (tot_cyc tot_geom : Z) :
  tot_cyc <= 0 \/ tot_geom <= 0 ->
  snd (scan w save tot_cyc tot_geom) = Ok [].
Proof.
  intros H. unfold find_invalid_confs.
  destruct (Z.le_gt_cases tot_cyc 0) as [Hc|Hc].
  - rewrite (range_empty 1 (tot_cyc + 1)) by lia. cbn. now destruct save.
  - assert (Hg : tot_geom <= 0) by lia.
    rewrite (range_empty 1 (tot_geom + 1)) by lia. cbn [map rmap].
    rewrite (rmap_ok _ (fun _ => [])) by reflexivity.
    assert (E : List.concat (List.concat
                  (map (fun _ : string => @nil (list string))
                     (map (pct_0d 4) (range 1 (tot_cyc + 1))))) = []).
    { rewrite (concat_nils (map _ _)); [reflexivity|].
      intros x Hx. apply in_map_iff in Hx. now destruct Hx as (y & <- & _). }
    rewrite E. now destruct save.
Qed.

Lemma scan_with_bad_template (w : world) (save : bool) (tot_cyc tot_geom : Z) :
  1 <= tot_cyc -> 1 <= tot_geom ->
  ~ takes_two_fields (tsv_template abspath ID ADD) ->
  scan w save tot_cyc tot_geom = (w, Raise FormatError).
Proof.
  intros Hc Hg Hn. unfold find_invalid_confs.
  rewrite (range_cons 1 (tot_cyc + 1)), (range_cons 1 (tot_geom + 1)) by lia.
  cbn [map rmap]. unfold missing_result at 1.
  rewrite format_needs_template by assumption. reflexivity.
Qed.

(** X1: when the name template can be filled in, [find_invalid_confs]
    returns, in the order of the scan, the input path of every expected
    pair whose result file is not in the directory listing, and of no
    other pair; the order of the listing does not matter. *)
Theorem scan_lists_missing_results (w : world) (save : bool) (tot_cyc tot_geom : Z) :
  takes_two_fields (tsv_template abspath ID ADD) ->
  snd (scan w save tot_cyc tot_geom) =
    Ok (map input_path'
          (filter (fun s => negb (str_in (result_name' s) listing))
             (expected_pairs tot_cyc tot_geom))) /\
  (forall paths, snd (scan w save tot_cyc tot_geom) = Ok paths ->
   forall p, In p paths <->
     exists s, (1 <= fst s <= tot_cyc /\ 1 <= snd s <= tot_geom) /\
               ~ In (result_name' s) listing /\ p = input_path' s).
Proof.
  intros Ht. split; [now apply find_invalid_confs_listing|].
  intros paths Hp p.
  rewrite (find_invalid_confs_listing w save tot_cyc tot_geom Ht) in Hp.
  inversion Hp; subst paths. clear Hp.
  rewrite in_map_iff. split.
  - intros (s & <- & Hs). apply filter_In in Hs. destruct Hs as (Hs & Hf).
    exists s. split; [now apply In_expected_pairs|]. split; [|reflexivity].
    intros Hin. apply (proj2 (str_in_In _ _)) in Hin.
    unfold join in Hin. cbn [fold_left] in Hin, Hf. rewrite Hin in Hf. discriminate.
  - intros (s & Hs & Hn & ->). exists s. split; [reflexivity|].
    apply filter_In. split; [now apply In_expected_pairs|].
    apply negb_true_iff, not_true_is_false. intros E.
    apply (proj1 (str_in_In _ _)) in E. exact (Hn E).
Qed.

(** X2: when the result file of every expected pair is in the listing,
    [find_invalid_confs] returns the empty list. *)
Theorem scan_of_complete_directory (w : world) (save : bool) (tot_cyc tot_geom : Z) :
  takes_two_fields (tsv_template abspath ID ADD) ->
  (forall s, In s (expected_pairs tot_cyc tot_geom) -> In (result_name' s) listing) ->
  snd (scan w save tot_cyc tot_geom) = Ok [].
Proof.
  intros Ht Hall. rewrite find_invalid_confs_listing by assumption.
  f_equal. rewrite filter_none; [reflexivity|].
  intros s Hs. apply Hall in Hs. apply (proj2 (str_in_In _ _)) in Hs.
  cbn beta. now rewrite Hs.
Qed.


(** X4: the list [find_invalid_confs] returns names no conformer twice. *)
Theorem scan_result_has_no_duplicates (w : world) (save : bool)
    (tot_cyc tot_geom : Z) (paths : list string) :
  snd (scan w save tot_cyc tot_geom) = Ok paths -> NoDup paths.
Proof.
  intros Hp.
  destruct (Z.le_gt_cases tot_cyc 0) as [Hc|Hc].
  { rewrite scan_without_pairs in Hp by auto. inversion Hp. constructor. }
  destruct (Z.le_gt_cases tot_geom 0) as [Hg|Hg].
  { rewrite scan_without_pairs in Hp by auto. inversion Hp. constructor. }
  destruct (format (tsv_template abspath ID ADD) [""; ""]) as [n0|e] eqn:E.
  - rewrite find_invalid_confs_listing in Hp by (now exists n0).
    inversion Hp; subst paths. clear Hp.
    apply Finite.Injective_map_NoDup_in.
    + intros s s' Hs Hs' Heq. apply filter_In in Hs, Hs'.
      destruct Hs as (Hs & _), Hs' as (Hs' & _).
      apply In_expected_pairs in Hs, Hs'.
      apply (input_path_inj abspath ID ADD); auto; lia.
    + apply NoDup_filter, NoDup_expected_pairs.
  - rewrite scan_with_bad_template in Hp; [discriminate|lia|lia|].
    intros (n0 & Hn0). congruence.
Qed.

End ScannerMore.

Lemma scan_lists_missing_results_witness :
  takes_two_fields (tsv_template example_abspath "X" "+H") /\
  snd (find_invalid_confs example_abspath example_one_glob [] "X" "+H" false 3 2) =
    Ok (map (input_path example_abspath "X" "+H")
          (filter (fun s => negb (str_in (result_name example_abspath "X" "+H" s)
                                    (example_one_glob
                                       (join (tsvpath example_abspath) ["*.tsv"]))))
             (expected_pairs 3 2))) /\
  (forall paths,
     snd (find_invalid_confs example_abspath example_one_glob [] "X" "+H" false 3 2)
       = Ok paths ->
   forall p, In p paths <->
     exists s, (1 <= fst s <= 3 /\ 1 <= snd s <= 2) /\
               ~ In (result_name example_abspath "X" "+H" s)
                   (example_one_glob (join (tsvpath example_abspath) ["*.tsv"])) /\
               p = input_path example_abspath "X" "+H" s).
Proof.
  assert (H1 : takes_two_fields (tsv_template example_abspath "X" "+H"))
    by (eexists; reflexivity).
  split; [exact H1|].
  exact (scan_lists_missing_results example_abspath example_one_glob "X" "+H"
           [] false 3 2 H1).
Defined.

Lemma scan_of_complete_directory_witness :
  takes_two_fields (tsv_template example_abspath "X" "+H") /\
  (forall s, In s (expected_pairs 3 2) ->
     In (result_name example_abspath "X" "+H" s)
        (example_full_glob (join (tsvpath example_abspath) ["*.tsv"]))) /\
  snd (find_invalid_confs example_abspath example_full_glob [] "X" "+H" true 3 2) = Ok [].
Proof.
  assert (H1 : takes_two_fields (tsv_template example_abspath "X" "+H"))
    by (eexists; reflexivity).
  assert (H2 : forall s, In s (expected_pairs 3 2) ->
                 In (result_name example_abspath "X" "+H" s)
                   (example_full_glob (join (tsvpath example_abspath) ["*.tsv"]))).
  { intros s Hs. unfold example_full_glob. apply in_map_iff. exists s.
    split; [|assumption].
    cbn in Hs. repeat (destruct Hs as [<-|Hs]; [reflexivity|]). contradiction. }
  split; [exact H1|]. split; [exact H2|].
  exact (scan_of_complete_directory example_abspath example_full_glob "X" "+H"
           [] true 3 2 H1 H2).
Defined.


Lemma scan_result_has_no_duplicates_witness :
  snd (find_invalid_confs example_abspath example_one_glob [] "X" "+H" false 3 2)
    = Ok [example_conf 0 0; example_conf 0 1; example_conf 1 1;
          example_conf 2 0; example_conf 2 1] /\
  NoDup [example_conf 0 0; example_conf 0 1; example_conf 1 1;
         example_conf 2 0; example_conf 2 1].
Proof.
  assert (H1 : snd (find_invalid_confs example_abspath example_one_glob []
                      "X" "+H" false 3 2)
               = Ok [example_conf 0 0; example_conf 0 1; example_conf 1 1;
                     example_conf 2 0; example_conf 2 1])
    by (vm_compute; reflexivity).
  split; [exact H1|].
  exact (scan_result_has_no_duplicates example_abspath example_one_glob "X" "+H"
           [] false 3 2 _ H1).
Defined.

Example scan_raises_before_writing :
  find_invalid_confs example_abspath example_empty_glob [] "{" "+H" true 3 2
  = ([], Raise FormatError).
Proof. vm_compute. reflexivity. Qed.

(* ================================================================== *)
(** * The scanner and the builder name a conformer alike *)

Lemma plain_append (a b : string) : plain (a ++ b) = (plain a && plain b)%bool.
Proof.
  induction a as [|c a IH]; cbn [append plain]; [reflexivity|].
  rewrite IH. now rewrite !andb_assoc.
Qed.

Lemma format_fields_plain (s : string) (args : list string) :
  plain s = true -> format_fields s args = Some s.
Proof.
  induction s as [|c s IH]; intros H; [reflexivity|].
  cbn [plain] in H. apply andb_true_iff in H. destruct H as (H & Hs).
  apply andb_true_iff in H. destruct H as (Ho & Hc).
  apply negb_true_iff in Ho, Hc.
  cbn [format_fields]. rewrite Ho, Hc, IH by assumption. reflexivity.
Qed.

Lemma format_fields_plain_prefix (s t : string) (args : list string) :
  plain s = true ->
  format_fields (s ++ t) args = option_map (append s) (format_fields t args).
Proof.
  intros H. apply (format_fields_literal_prefix (String.length s)); [apply le_n|].
  now apply format_fields_plain.
Qed.

(** For brace-free identifier, adduct and directory, filling in
    [confstring] gives the path the scanner builds for the same cycle
    and geometry strings. *)
Lemma confstring_format (abspath : string -> string) (ID ADD c g : string) :
  plain (geomdir abspath ID ADD) = true -> plain ID = true -> plain ADD = true ->
  g <> "" -> ends_with_sep g = false ->
  format (confstring abspath ID ADD) [c; g; c; g] = Ok (conformer_xyz abspath ID ADD c g).
Proof.
  intros HG HI HA Hg1 Hg2.
  unfold format, confstring, conformer_xyz, join. cbn [fold_left].
  set (P := ID ++ "_" ++ ADD ++ "_").
  assert (EP : ID ++ "_" ++ ADD ++ "_" ++ c ++ "_geom" ++ g ++ ".xyz"
               = P ++ c ++ "_geom" ++ g ++ ".xyz").
  { unfold P. rewrite !append_assoc. reflexivity. }
  rewrite EP.
  assert (HP : P <> "") by apply append_nonempty.
  assert (HPp : plain P = true).
  { unfold P. rewrite !plain_append, HI, HA. reflexivity. }
  assert (HPf : format_fields (P ++ "{}_geom{}.xyz") [c; g; c; g]
                = Some (P ++ c ++ "_geom" ++ g ++ ".xyz")).
  { rewrite format_fields_plain_prefix by assumption. reflexivity. }
  assert (HPf2 : format_fields (P ++ "{}_geom{}.xyz") [c; g]
                 = Some (P ++ c ++ "_geom" ++ g ++ ".xyz")).
  { rewrite format_fields_plain_prefix by assumption. reflexivity. }
  clearbody P.
  rewrite (join2_relative _ "cycle_{}_geom{}") by reflexivity.
  rewrite (join2_relative _ ("cycle_" ++ c ++ "_geom" ++ g)) by reflexivity.
  set (G := if (_ || _)%bool then _ else _).
  assert (HGp : plain G = true).
  { unfold G. destruct (_ || _)%bool; [assumption|].
    rewrite plain_append, HG. reflexivity. }
  clearbody G.
  unfold join2. rewrite !starts_with_sep_append by assumption.
  destruct (starts_with_sep P).
  - now rewrite HPf.
  - assert (He : ends_with_sep (G ++ "cycle_" ++ c ++ "_geom" ++ g) = false).
    { replace (G ++ "cycle_" ++ c ++ "_geom" ++ g)
        with ((G ++ "cycle_" ++ c ++ "_geom") ++ g)
        by (rewrite !append_assoc; reflexivity).
      now rewrite ends_with_sep_append. }
    assert (Hn : String.eqb (G ++ "cycle_" ++ c ++ "_geom" ++ g) "" = false).
    { apply String.eqb_neq. apply append_nonempty. }
    assert (He' : ends_with_sep (G ++ "cycle_{}_geom{}") = false).
    { now rewrite ends_with_sep_append by discriminate. }
    assert (Hn' : String.eqb (G ++ "cycle_{}_geom{}") "" = false).
    { apply String.eqb_neq. apply append_nonempty. }
    rewrite He, Hn, He', Hn'. cbn [orb].
    rewrite !append_assoc.
    rewrite format_fields_plain_prefix by assumption.
    cbn. rewrite HPf2. reflexivity.
Qed.

(** X5: for identifier, adduct and directory without braces, the path
    [conf0] the builder resolves for the 0-based slot [(c, g)] is the
    very string the scanner returns for the pair [(c+1, g+1)]: the
    membership test in the invalid set compares like with like. *)
Theorem builder_and_scanner_paths_agree (abspath : string -> string)
    (ID ADD : string) (c g : Z) :
  plain (geomdir abspath ID ADD) = true -> plain ID = true -> plain ADD = true ->
  conf_path abspath ID ADD c g = Ok (input_path abspath ID ADD (c + 1, g + 1)).
Proof.
  intros HG HI HA. unfold conf_path, input_path. cbn [fst snd].
  apply confstring_format; auto; apply pct_0d_tail.
Qed.

Lemma builder_and_scanner_paths_agree_witness :
  plain (geomdir example_abspath "X" "+H") = true /\
  plain "X" = true /\ plain "+H" = true /\
  conf_path example_abspath "X" "+H" 1 0
    = Ok (input_path example_abspath "X" "+H" (1 + 1, 0 + 1)).
Proof.
  assert (H1 : plain (geomdir example_abspath "X" "+H") = true) by reflexivity.
  assert (H2 : plain "X" = true) by reflexivity.
  assert (H3 : plain "+H" = true) by reflexivity.
  split; [exact H1|]. split; [exact H2|]. split; [exact H3|].
  exact (builder_and_scanner_paths_agree example_abspath "X" "+H" 1 0 H1 H2 H3).
Defined.

(** With a doubled brace in the identifier the two differ: [format]
    halves the brace, the scanner's path keeps both. *)
Example paths_differ_on_doubled_brace :
  conf_path example_abspath "{{" "+H" 0 0
    = Ok "/w/output/dft/{_+H/cycle_0001_geom01/{_+H_0001_geom01.xyz" /\
  input_path example_abspath "{{" "+H" (1, 1)
    = "/w/output/dft/{{_+H/cycle_0001_geom01/{{_+H_0001_geom01.xyz".
Proof. split; reflexivity. Qed.

(* ================================================================== *)
(** * More about the table *)

Lemma range_append (a b c : Z) :
  a <= b <= c -> (range a b ++ range b c)%list = range a c.
Proof.
  intros H. remember (Z.to_nat (b - a)) as n eqn:Hn.
  revert a H Hn. induction n as [|n IH]; intros a H Hn.
  - assert (a = b) by lia. subst a. now rewrite (range_empty b b) by lia.
  - rewrite (range_cons a b), (range_cons a c) by lia. cbn. f_equal.
    apply IH; lia.
Qed.

Lemma map_range_shift (k a b : Z) :
  map (fun x => k + x) (range a b) = range (k + a) (k + b).
Proof.
  unfold range. rewrite map_map.
  replace (k + b - (k + a)) with (b - a) by lia.
  apply map_ext. intros i. lia.
Qed.

Lemma nth_error_range (a b : Z) (k : nat) :
  (k < Z.to_nat (b - a))%nat -> nth_error (range a b) k = Some (a + Z.of_nat k).
Proof.
  intros H. unfold range. rewrite nth_error_map.
  rewrite nth_error_seq. destruct (Nat.ltb_spec k (Z.to_nat (b - a))); [|lia].
  reflexivity.
Qed.

(** The slots of whole cycles, flattened, are consecutive indices. *)
Lemma flat_index_of_cycles (tot_geom c0 c1 : Z) :
  0 <= tot_geom -> c0 <= c1 ->
  map (fun s => flat_index tot_geom (fst s) (snd s))
    (flat_map (fun c => map (fun g => (c, g)) (range 0 tot_geom)) (range c0 c1))
  = range (c0 * tot_geom) (c1 * tot_geom).
Proof.
  intros Hg H. remember (Z.to_nat (c1 - c0)) as n eqn:Hn.
  revert c0 H Hn. induction n as [|n IH]; intros c0 H Hn.
  - assert (c0 = c1) by lia. subst c0.
    now rewrite (range_empty c1 c1), (range_empty (c1 * tot_geom)) by lia.
  - rewrite (range_cons c0 c1) by lia. cbn [flat_map].
    rewrite map_app, IH by lia. rewrite map_map. cbn [fst snd]. unfold flat_index.
    rewrite (map_range_shift (c0 * tot_geom) 0 tot_geom).
    replace (c0 * tot_geom + 0) with (c0 * tot_geom) by lia.
    replace (c0 * tot_geom + tot_geom) with ((c0 + 1) * tot_geom) by lia.
    apply range_append. nia.
Qed.

(** The slots a row is compared with are, in order, the slots of the
    flattened indices after the row's own, up to the last. *)
Lemma flat_index_of_later_slots (tot_cyc tot_geom cyc geom : Z) :
  0 <= cyc < tot_cyc -> 0 <= geom < tot_geom ->
  map (fun s => flat_index tot_geom (fst s) (snd s))
    (later_slots tot_cyc tot_geom cyc geom)
  = range (flat_index tot_geom cyc geom + 1) (tot_cyc * tot_geom).
Proof.
  intros Hc Hg. unfold later_slots.
  rewrite map_app, map_map, flat_index_of_cycles by lia. cbn [fst snd].
  unfold flat_index. rewrite (map_range_shift (cyc * tot_geom)).
  replace (cyc * tot_geom + (geom + 1)) with (cyc * tot_geom + geom + 1) by lia.
  replace (cyc * tot_geom + tot_geom) with ((cyc + 1) * tot_geom) by lia.
  apply range_append. nia.
Qed.

Lemma pool_map_nth {A B} (f : A -> comp B) (xs : list A) l (ys : list B)
    (k : nat) (x : A) :
  pool_map f xs = (l, Ok ys) -> nth_error xs k = Some x ->
  exists y, nth_error ys k = Some y /\ snd (f x) = Ok y.
Proof.
  revert l ys k. induction xs as [|x0 xs IH]; intros l ys k H Hk.
  - destruct k; discriminate.
  - cbn in H. destruct (f x0) as [l1 r1] eqn:E0.
    destruct (pool_map f xs) as [l2 r2] eqn:E.
    destruct r1 as [y0|e]; [|inversion H].
    destruct r2 as [ys'|e]; inversion H; subst.
    destruct k as [|k]; cbn in Hk |- *.
    + inversion Hk; subst. exists y0. now rewrite E0.
    + eapply IH; eauto.
Qed.

Lemma lookup_row_None (k : Z) (rs : list (Z * list float)) :
  lookup_row k rs = None <-> ~ In k (map fst rs).
Proof.
  induction rs as [|[j r] rs IH]; cbn; [tauto|].
  destruct (Z.eqb_spec j k).
  - split; [discriminate|]. intros H. elim H. now left.
  - rewrite IH. tauto.
Qed.

Lemma loc_set_new_label (df df' : DataFrame) (k : Z) (row : list float) :
  lookup_row k (rows df) = None -> loc_set df k row = Ok df' ->
  rows df' = (rows df ++ [(k, row)])%list.
Proof.
  unfold loc_set. intros ->.
  destruct (Nat.eqb (List.length (columns df)) 0); [discriminate|].
  destruct (Nat.eqb (List.length row) (List.length (columns df))); [|discriminate].
  intros H. now inversion H.
Qed.

Section TableMore.

Variable abspath : string -> string.
Variable Mol : Type.
Variable readfile : string -> option Mol.
Variable GetRMSD : Mol -> Mol -> float.
Variable current_cyc : Z.
Variable invalid : list string.
Variables ID ADD : string.
Variables tot_cyc tot_geom : Z.

Local Abbreviation rmsd' := (rmsd Mol readfile GetRMSD).
Local Abbreviation conf_path' := (conf_path abspath ID ADD).
Local Abbreviation make_row' :=
  (make_row abspath Mol readfile GetRMSD current_cyc invalid ID ADD tot_cyc tot_geom).
Local Abbreviation fill_rows' :=
  (fill_rows abspath Mol readfile GetRMSD current_cyc invalid ID ADD tot_cyc tot_geom).
Local Abbreviation build_table' :=
  (build_table abspath Mol readfile GetRMSD current_cyc invalid ID ADD tot_cyc tot_geom).
Local Abbreviation later := (later_slots tot_cyc tot_geom current_cyc).

Lemma fill_rows_labels (gs : list Z) (df df' : DataFrame) log :
  NoDup gs -> (forall g, In g gs -> lookup_row g (rows df) = None) ->
  fill_rows' gs df = (log, Ok df') ->
  map fst (rows df') = (map fst (rows df) ++ gs)%list.
Proof.
  intros Hnd. revert df log. induction Hnd as [|g gs Hg Hnd IH]; intros df log Hnew H.
  - cbn in H. inversion H; subst. now rewrite app_nil_r.
  - apply fill_rows_cons_ok in H. destruct H as (l & row & df1 & l' & _ & Hl & Hf).
    pose proof (loc_set_new_label _ _ _ _ (Hnew g (or_introl eq_refl)) Hl) as Hrows.
    assert (Hnew1 : forall g', In g' gs -> lookup_row g' (rows df1) = None).
    { intros g' Hg'. rewrite Hrows, lookup_row_app, (Hnew g') by now right.
      cbn. destruct (Z.eqb_spec g g'); [congruence|reflexivity]. }
    rewrite (IH _ _ Hnew1 Hf), Hrows, map_app, <- app_assoc. reflexivity.
Qed.

(** X6: a table the builder returns has the columns [0 .. T-1] with
    [T = tot_cyc * tot_geom], one row for each geometry index of the
    cycle, in ascending order, and [T] cells in every row. *)
Theorem table_shape (log : list event) (df : DataFrame) :
  build_table' = (log, Ok df) ->
  columns df = range 0 (tot_cyc * tot_geom) /\
  map fst (rows df) = range 0 tot_geom /\
  Forall (fun r => List.length (snd r) = Z.to_nat (tot_cyc * tot_geom)) (rows df).
Proof.
  intros H. pose proof H as H0. unfold build_table in H.
  destruct (fill_rows_rows _ _ _ _ _ _ _ _ _ _ _ _ _ _ H) as (Hc & _ & _).
  assert (Hl : map fst (rows df) = range 0 tot_geom).
  { assert (Hnew : forall g, In g (range 0 tot_geom) ->
                lookup_row g (rows (new_frame (tot_cyc * tot_geom))) = None)
      by reflexivity.
    rewrite (fill_rows_labels _ _ _ _ (NoDup_range 0 tot_geom) Hnew H).
    reflexivity. }
  split; [exact Hc|]. split; [exact Hl|].
  destruct (build_table_rows _ _ _ _ _ _ _ _ _ _ _ _ H0) as (_ & _ & Hr).
  assert (Hnd : NoDup (map fst (rows df))) by (rewrite Hl; apply NoDup_range).
  apply Forall_forall. intros [k row] Hin. cbn [snd].
  assert (Hk : lookup_row k (rows df) = Some row).
  { clear -Hin Hnd. induction (rows df) as [|[j r] rs IH]; [contradiction|].
    cbn in Hnd. inversion Hnd as [|? ? Hj Hnd']; subst. cbn.
    destruct Hin as [E|Hin].
    - inversion E; subst. now rewrite Z.eqb_refl.
    - destruct (Z.eqb_spec j k) as [->|Hne]; [|now apply IH].
      elim Hj. apply in_map_iff. now exists (k, row). }
  now destruct (Hr _ _ Hk) as (_ & Hlen & _).
Qed.

(** X7: the hard-wired 50 decides whether a table can come out.  When
    the builder returns a table for a cycle of the run in which some
    slot is valid, then the cycle is the first one or [tot_geom] is 50:
    for any other [tot_geom] the row of a valid slot of a later cycle
    never fits the frame. *)
Theorem table_needs_fifty_geometries (log : list event) (df : DataFrame)
    (g : Z) (conf0 : string) :
  build_table' = (log, Ok df) ->
  In current_cyc (range 0 tot_cyc) -> In g (range 0 tot_geom) ->
  conf_path' current_cyc g = Ok conf0 -> str_in conf0 invalid = false ->
  current_cyc = 0 \/ tot_geom = 50.
Proof.
  intros H Hc Hg Hp Hi. apply In_range in Hc, Hg.
  destruct (build_table_rows _ _ _ _ _ _ _ _ _ _ _ _ H) as (_ & Hex & Hr).
  destruct (lookup_row g (rows df)) as [row|] eqn:Hrow; [|now elim (Hex g Hg)].
  destruct (Hr _ _ Hrow) as (_ & Hlen & l & Hm).
  destruct (make_row_shape _ _ _ _ _ _ _ _ _ _ _ _ _ Hm)
    as (c0 & tail & Hp' & Hrow' & [(Hi' & _)|(_ & conformers & Hs & Ht)]).
  - rewrite Hp in Hp'. inversion Hp'; subst. congruence.
  - subst row.
    pose proof (valid_row_fits abspath current_cyc ID ADD tot_cyc tot_geom g tail
                  conformers Hc Hg Hs Ht Hlen) as E.
    unfold prev, flat_index in E. nia.
Qed.

(** X8: in a table the builder returns for a cycle of the run, the row
    of a valid slot holds, under the column of every later slot, the
    outcome of [rmsd] between the two conformers: the placeholder when
    the later conformer is in the invalid set, otherwise the RMSD the
    alignment library gives for the row's conformer as reference and
    the later one as target. *)
Theorem computed_cells (log : list event) (df : DataFrame) (i : Z) (conf0 : string)
    (c' g' : Z) (target : string) :
  build_table' = (log, Ok df) ->
  In current_cyc (range 0 tot_cyc) -> In i (range 0 tot_geom) ->
  conf_path' current_cyc i = Ok conf0 -> str_in conf0 invalid = false ->
  In (c', g') (later i) -> conf_path' c' g' = Ok target ->
  exists v,
    cell df i (flat_index tot_geom c' g') = Some v /\
    (str_in target invalid = true -> v = nan) /\
    (str_in target invalid = false ->
     exists a b, readfile conf0 = Some a /\ readfile target = Some b /\
                 v = GetRMSD a b).
Proof.
  intros H Hc Hi Hp Hv Hin Ht. apply In_range in Hc, Hi.
  destruct (build_table_rows _ _ _ _ _ _ _ _ _ _ _ _ H) as (_ & Hex & Hr).
  destruct (lookup_row i (rows df)) as [row|] eqn:Hrow; [|now elim (Hex i Hi)].
  destruct (Hr _ _ Hrow) as (_ & Hlen & l & Hm).
  destruct (conf_path_total abspath ID ADD _ _ _ Hp) as (path & Hpath).
  rewrite (make_row_valid _ _ _ _ _ _ _ _ _ _ _ _ Hp Hv) in Hm.
  rewrite (comparison_set_ok abspath current_cyc ID ADD tot_cyc tot_geom i path Hpath)
    in Hm.
  unfold lift in Hm. rewrite bind_ok_nil in Hm.
  apply bind_inv_ok in Hm. destruct Hm as (l1 & pwrmsd & l2 & Hpool & Hret & _).
  inversion Hret; subst row. clear Hret.
  pose proof (pool_map_length _ _ _ _ Hpool) as Hlp. rewrite length_map in Hlp.
  assert (Hprev : prev current_cyc i = flat_index tot_geom current_cyc i).
  { eapply (valid_row_fits abspath current_cyc ID ADD tot_cyc tot_geom i pwrmsd);
      eauto using comparison_set_ok. now rewrite length_map. }
  destruct (In_nth_error _ _ Hin) as (k & Hk).
  assert (Hklt : (k < List.length (later i))%nat)
    by (apply nth_error_Some; congruence).
  assert (Hflat : flat_index tot_geom c' g'
                  = flat_index tot_geom current_cyc i + 1 + Z.of_nat k).
  { pose proof (flat_index_of_later_slots tot_cyc tot_geom current_cyc i Hc Hi) as E.
    apply (f_equal (fun l => nth_error l k)) in E.
    rewrite nth_error_map, Hk in E. cbn in E.
    rewrite nth_error_range in E.
    - now inversion E.
    - rewrite <- length_range, <- (flat_index_of_later_slots tot_cyc tot_geom
                                     current_cyc i Hc Hi), length_map.
      exact Hklt. }
  destruct (pool_map_nth _ _ _ _ k target Hpool) as (v & Hv1 & Hv2).
  { rewrite nth_error_map, Hk. cbn. f_equal.
    specialize (Hpath c' g'). rewrite Ht in Hpath. now inversion Hpath. }
  exists v. split.
  - unfold cell. rewrite Hrow.
    assert (Hnn : 0 <= flat_index tot_geom current_cyc i) by (unfold flat_index; nia).
    destruct (Z.ltb_spec (flat_index tot_geom c' g') 0); [lia|].
    rewrite nth_error_app2; rewrite length_app, length_leading_cells;
      fold (prev current_cyc i); rewrite Hprev; cbn [List.length]; [|lia].
    replace (Z.to_nat (flat_index tot_geom c' g')
             - (Z.to_nat (flat_index tot_geom current_cyc i) + 1))%nat with k by lia.
    exact Hv1.
  - split.
    + intros E. rewrite rmsd_invalid_target in Hv2 by assumption.
      now inversion Hv2.
    + intros E. rewrite rmsd_valid_target in Hv2 by assumption.
      destruct (readfile conf0) as [a|]; [|discriminate].
      destruct (readfile target) as [b|]; [|discriminate].
      inversion Hv2. now exists a, b.
Qed.

(** X9: every comparison the builder dispatches has a valid slot of its
    cycle as reference and a strictly later slot as target, and the
    alignment routine only runs on a target that is not in the invalid
    set: no conformer is compared with itself or with an earlier one. *)
Theorem comparisons_go_forward (e : event) :
  In e (fst build_table') ->
  exists g conf0 c' g' target,
    In g (range 0 tot_geom) /\
    conf_path' current_cyc g = Ok conf0 /\ str_in conf0 invalid = false /\
    In (c', g') (later g) /\ slot_lt (current_cyc, g) (c', g') /\
    conf_path' c' g' = Ok target /\
    (e = Compare target conf0 \/
     (e = Align conf0 target /\ str_in target invalid = false)).
Proof.
  intros H. unfold build_table in H. apply fill_rows_log in H.
  destruct H as (g & Hg & H).
  destruct (conf_path' current_cyc g) as [conf0|x] eqn:Hp.
  2:{ unfold make_row in H. rewrite Hp in H. cbn in H. contradiction. }
  destruct (str_in conf0 invalid) eqn:Hi.
  { rewrite (make_row_invalid _ _ _ _ _ _ _ _ _ _ _ _ Hp Hi) in H. contradiction. }
  destruct (conf_path_total abspath ID ADD _ _ _ Hp) as (path & Hpath).
  rewrite (make_row_valid _ _ _ _ _ _ _ _ _ _ _ _ Hp Hi) in H.
  rewrite (comparison_set_ok abspath current_cyc ID ADD tot_cyc tot_geom g path Hpath)
    in H.
  unfold lift in H. rewrite bind_ok_nil in H.
  apply bind_log in H. destruct H as [H|(pw & _ & H)]; [|contradiction].
  apply pool_map_log in H. destruct H as (target & Hin & H).
  apply in_map_iff in Hin. destruct Hin as ([c' g'] & <- & Hin).
  exists g, conf0, c', g', (path (c', g')).
  split; [assumption|]. split; [exact Hp|]. split; [assumption|].
  split; [assumption|]. split.
  { apply In_later_slots in Hin. unfold slot_lt. cbn. lia. }
  split; [apply Hpath|].
  destruct (str_in (path (c', g')) invalid) eqn:Et.
  - rewrite rmsd_invalid_target in H by assumption.
    destruct H as [<-|[]]. now left.
  - rewrite rmsd_valid_target in H by assumption.
    destruct (readfile conf0); [destruct (readfile (path (c', g')))|]; cbn in H;
      intuition.
Qed.

End TableMore.


Lemma table_shape_witness :
  example_build [] = (fst (example_build []), Ok example_table) /\
  columns example_table = range 0 (3 * 2) /\
  map fst (rows example_table) = range 0 2 /\
  Forall (fun r => List.length (snd r) = Z.to_nat (3 * 2)) (rows example_table).
Proof.
  assert (H1 : example_build [] = (fst (example_build []), Ok example_table))
    by (vm_compute; reflexivity).
  split; [exact H1|].
  exact (table_shape example_abspath string example_readfile example_GetRMSD
           0 [] "X" "+H" 3 2 _ _ H1).
Defined.

Lemma table_needs_fifty_geometries_witness :
  example_build_50 = (fst example_build_50, Ok example_table_50) /\
  In 1 (range 0 2) /\ In 0 (range 0 50) /\
  conf_path example_abspath "X" "+H" 1 0 = Ok (example_conf 1 0) /\
  str_in (example_conf 1 0) [] = false /\
  (1 = 0 \/ 50 = 50).
Proof.
  assert (H1 : example_build_50 = (fst example_build_50, Ok example_table_50))
    by (vm_compute; reflexivity).
  assert (H2 : In 1 (range 0 2)) by (apply In_range; lia).
  assert (H3 : In 0 (range 0 50)) by (apply In_range; lia).
  assert (H4 : conf_path example_abspath "X" "+H" 1 0 = Ok (example_conf 1 0))
    by reflexivity.
  assert (H5 : str_in (example_conf 1 0) [] = false) by reflexivity.
  split; [exact H1|]. split; [exact H2|]. split; [exact H3|].
  split; [exact H4|]. split; [exact H5|].
  exact (table_needs_fifty_geometries example_abspath string example_readfile
           example_GetRMSD 1 [] "X" "+H" 2 50 _ _ 0 _ H1 H2 H3 H4 H5).
Defined.

Lemma computed_cells_witness :
  example_build [example_conf 0 1]
    = (fst (example_build [example_conf 0 1]), Ok example_table_invalid) /\
  In 0 (range 0 3) /\ In 0 (range 0 2) /\
  conf_path example_abspath "X" "+H" 0 0 = Ok (example_conf 0 0) /\
  str_in (example_conf 0 0) [example_conf 0 1] = false /\
  In (0, 1) (later_slots 3 2 0 0) /\
  conf_path example_abspath "X" "+H" 0 1 = Ok (example_conf 0 1) /\
  exists v,
    cell example_table_invalid 0 (flat_index 2 0 1) = Some v /\
    (str_in (example_conf 0 1) [example_conf 0 1] = true -> v = nan) /\
    (str_in (example_conf 0 1) [example_conf 0 1] = false ->
     exists a b, example_readfile (example_conf 0 0) = Some a /\
                 example_readfile (example_conf 0 1) = Some b /\
                 v = example_GetRMSD a b).
Proof.
  assert (H1 : example_build [example_conf 0 1]
               = (fst (example_build [example_conf 0 1]), Ok example_table_invalid)).
  { vm_compute. reflexivity. }
  assert (H2 : In 0 (range 0 3)) by (apply In_range; lia).
  assert (H3 : In 0 (range 0 2)) by (apply In_range; lia).
  assert (H4 : conf_path example_abspath "X" "+H" 0 0 = Ok (example_conf 0 0))
    by reflexivity.
  assert (H5 : str_in (example_conf 0 0) [example_conf 0 1] = false) by reflexivity.
  assert (H6 : In (0, 1) (later_slots 3 2 0 0)) by (apply In_later_slots; lia).
  assert (H7 : conf_path example_abspath "X" "+H" 0 1 = Ok (example_conf 0 1))
    by reflexivity.
  split; [exact H1|]. split; [exact H2|]. split; [exact H3|]. split; [exact H4|].
  split; [exact H5|]. split; [exact H6|]. split; [exact H7|].
  exact (computed_cells example_abspath string example_readfile example_GetRMSD
           0 [example_conf 0 1] "X" "+H" 3 2 _ _ 0 _ 0 1 _ H1 H2 H3 H4 H5 H6 H7).
Defined.

Lemma comparisons_go_forward_witness :
  In (Compare (example_conf 0 1) (example_conf 0 0)) (fst (example_build [])) /\
  exists g conf0 c' g' target,
    In g (range 0 2) /\
    conf_path example_abspath "X" "+H" 0 g = Ok conf0 /\ str_in conf0 [] = false /\
    In (c', g') (later_slots 3 2 0 g) /\ slot_lt (0, g) (c', g') /\
    conf_path example_abspath "X" "+H" c' g' = Ok target /\
    (Compare (example_conf 0 1) (example_conf 0 0) = Compare target conf0 \/
     (Compare (example_conf 0 1) (example_conf 0 0) = Align conf0 target /\
      str_in target [] = false)).
Proof.
  assert (H1 : In (Compare (example_conf 0 1) (example_conf 0 0))
                 (fst (example_build []))) by (left; reflexivity).
  split; [exact H1|].
  exact (comparisons_go_forward example_abspath string example_readfile
           example_GetRMSD 0 [] "X" "+H" 3 2 _ H1).
Defined.


(* ================================================================== *)
(** * More about the driver *)

Section DriverMore.

Variable abspath : string -> string.
Variable glob : string -> list string.
Variable Mol : Type.
Variable readfile : string -> option Mol.
Variable GetRMSD : Mol -> Mol -> float.
Variables ID ADD : string.
Variables tot_cyc tot_geom : Z.

Local Abbreviation artifact := (pkl_path (main_writedir abspath) ID ADD).
Local Abbreviation run_cycles' cs invalid :=
  (run_cycles abspath Mol readfile GetRMSD cs invalid ID ADD tot_cyc tot_geom).
Local Abbreviation builder c invalid :=
  (pwrmsd_writer_multinode abspath Mol readfile GetRMSD c (main_writedir abspath)
     invalid ID ADD tot_cyc tot_geom).
Local Abbreviation main' :=
  (main abspath glob Mol readfile GetRMSD ID ADD tot_cyc tot_geom).

(** One turn of the loop over the cycles. *)
Lemma run_cycles_cons (c : Z) (cs : list Z) (invalid : list string) (w : world) :
  run_cycles' (c :: cs) invalid w =
  if isfile w (artifact c) then run_cycles' cs invalid w
  else
    match builder c invalid w with
    | (w1, (l, Ok _)) =>
        let '(w2, (l', r)) := run_cycles' cs invalid w1 in
        (w2, ((Build c :: l ++ l')%list, r))
    | (w1, (l, Raise e)) => (w1, (Build c :: l, Raise e))
    end.
Proof. reflexivity. Qed.

(** The files after the loop: the files before it and artifacts of
    cycles that were built. *)
Lemma run_cycles_files (cs : list Z) (invalid : list string) :
  forall (w w' : world) log r,
    run_cycles' cs invalid w = (w', (log, r)) ->
    forall p, isfile w' p = true ->
      isfile w p = true \/ exists c, In (Build c) log /\ p = artifact c.
Proof.
  induction cs as [|c0 cs IH]; intros w w' log r H p Hp.
  - cbn in H. inversion H; subst. now left.
  - rewrite run_cycles_cons in H.
    destruct (isfile w (artifact c0)); [eauto|].
    destruct (builder c0 invalid w) as [w1 [l1 r1]] eqn:Hb.
    apply pwrmsd_writer_multinode_world in Hb. destruct Hb as (_ & Hw1).
    destruct r1 as [u|e].
    + destruct Hw1 as (df & ->).
      destruct (run_cycles' cs invalid _) as [w2 [l2 r2]] eqn:Hrest.
      inversion H; subst. clear H.
      destruct (IH _ _ _ _ Hrest p Hp) as [Hold|(c & Hc & ->)].
      * rewrite isfile_write_file in Hold. apply orb_true_iff in Hold.
        destruct Hold as [E|Hold]; [|now left].
        apply String.eqb_eq in E. right. exists c0. split; [now left|auto].
      * right. exists c. split; [|reflexivity]. right. apply in_or_app. now right.
    + inversion H; subst. now left.
Qed.

(** A loop that raised did so in the last cycle it built, and that
    cycle is the only built one without artifact. *)
Lemma run_cycles_raised (cs : list Z) (invalid : list string) :
  NoDup cs ->
  forall (w w' : world) log e,
    run_cycles' cs invalid w = (w', (log, Raise e)) ->
    exists c, In (Build c) log /\ In c cs /\ isfile w' (artifact c) = false /\
              forall c', In (Build c') log -> c' <> c -> isfile w' (artifact c') = true.
Proof.
  induction 1 as [|c0 cs Hc0 Hnd IH]; intros w w' log e H.
  - cbn in H. inversion H.
  - rewrite run_cycles_cons in H.
    destruct (isfile w (artifact c0)) eqn:Hex.
    { destruct (IH _ _ _ _ H) as (c & H1 & H2 & H3 & H4).
      exists c. auto with datatypes. }
    destruct (builder c0 invalid w) as [w1 [l1 r1]] eqn:Hb.
    apply pwrmsd_writer_multinode_world in Hb. destruct Hb as (Hl1 & Hw1).
    destruct r1 as [u|e1].
    + destruct Hw1 as (df & ->).
      destruct (run_cycles' cs invalid _) as [w2 [l2 r2]] eqn:Hrest.
      inversion H; subst w2 log r2. clear H.
      destruct (IH _ _ _ _ Hrest) as (c & H1 & H2 & H3 & H4).
      destruct (run_cycles_spec abspath glob Mol readfile GetRMSD ID ADD tot_cyc tot_geom
                  cs invalid Hnd _ _ _ _ Hrest) as (Hmono & _).
      exists c. split; [right; apply in_or_app; now right|].
      split; [now right|]. split; [assumption|].
      intros c' [E|Hc'] Hne.
      * inversion E; subst c'. apply Hmono.
        rewrite isfile_write_file, String.eqb_refl. reflexivity.
      * apply in_app_or in Hc'. destruct Hc' as [Hc'|Hc']; [|auto].
        subst l1. exfalso. eapply build_table_events; eauto.
    + inversion H; subst. exists c0. split; [now left|]. split; [now left|].
      split; [assumption|].
      intros c' [E|Hc'] Hne; [inversion E; congruence|].
      exfalso. eapply build_table_events; eauto.
Qed.

(** The loop over two lists of cycles in a row. *)
Lemma run_cycles_app (cs1 cs2 : list Z) (invalid : list string) :
  forall w,
    run_cycles' (cs1 ++ cs2) invalid w =
    match run_cycles' cs1 invalid w with
    | (w1, (l1, Ok _)) =>
        let '(w2, (l2, r2)) := run_cycles' cs2 invalid w1 in
        (w2, ((l1 ++ l2)%list, r2))
    | (w1, (l1, Raise e)) => (w1, (l1, Raise e))
    end.
Proof.
  induction cs1 as [|c cs1 IH]; intros w.
  - cbn [app run_cycles ret].
    now destruct (run_cycles' cs2 invalid w) as [w2 [l2 r2]].
  - cbn [app]. rewrite !run_cycles_cons.
    destruct (isfile w (artifact c)); [apply IH|].
    destruct (builder c invalid w) as [w1 [l1 [u|e]]]; [|reflexivity].
    rewrite IH.
    destruct (run_cycles' cs1 invalid w1) as [w2 [l2 [u2|e2]]]; [|reflexivity].
    destruct (run_cycles' cs2 invalid w2) as [w3 [l3 r3]].
    now rewrite app_comm_cons, app_assoc.
Qed.

Lemma builder_on_world (c : Z) (invalid : list string) (w : world) :
  builder c invalid w =
  match build_table abspath Mol readfile GetRMSD c invalid ID ADD tot_cyc tot_geom with
  | (l, Ok df) => (write_file w (artifact c) (PickleFile df), (l, Ok tt))
  | (l, Raise e) => (w, (l, Raise e))
  end.
Proof. reflexivity. Qed.

(** The loop looks at the world through [isfile] only. *)
Lemma run_cycles_isfile_ext (cs : list Z) (invalid : list string) :
  forall (wA wB wA' : world) log r,
    (forall p, isfile wA p = isfile wB p) ->
    run_cycles' cs invalid wA = (wA', (log, r)) ->
    exists wB', run_cycles' cs invalid wB = (wB', (log, r))
                /\ forall p, isfile wA' p = isfile wB' p.
Proof.
  induction cs as [|c cs IH]; intros wA wB wA' log r Heq H.
  - cbn in H |- *. inversion H; subst. now exists wB.
  - rewrite run_cycles_cons in H. rewrite run_cycles_cons.
    rewrite <- (Heq (artifact c)).
    destruct (isfile wA (artifact c)); [eauto|].
    rewrite builder_on_world in H. rewrite builder_on_world.
    destruct (build_table abspath Mol readfile GetRMSD c invalid ID ADD
                tot_cyc tot_geom) as [l1 [df|e]].
    + destruct (run_cycles' cs invalid
                  (write_file wA (artifact c) (PickleFile df)))
        as [w2 [l2 r2]] eqn:Hrest.
      inversion H; subst. clear H.
      assert (Heq1 : forall p,
                 isfile (write_file wA (artifact c) (PickleFile df)) p
                 = isfile (write_file wB (artifact c) (PickleFile df)) p).
      { intros p. rewrite !isfile_write_file. now rewrite Heq. }
      destruct (IH _ _ _ _ _ Heq1 Hrest) as (wB' & HB & Heq').
      exists wB'. rewrite HB. auto.
    + inversion H; subst. now exists wB.
Qed.

(** X11: the driver removes no file, creates nothing but the list of
    invalid conformers and the artifacts of the cycles it built, and
    after a run that came to its end the artifact of every cycle of
    the range exists. *)
Theorem files_after_a_run (start stop : Z) (w w' : world) (log : list event)
    (r : result unit) :
  main' start stop w = (w', (log, r)) ->
  (forall p, isfile w p = true -> isfile w' p = true) /\
  (forall p, isfile w' p = true ->
     isfile w p = true \/ p = "invalid_conf_paths.txt" \/
     exists c, In (Build c) log /\ p = artifact c) /\
  (r = Ok tt -> forall c, start <= c < stop -> isfile w' (artifact c) = true).
Proof.
  unfold main. rewrite find_invalid_confs_world.
  destruct (snd (find_invalid_confs abspath glob [] ID ADD true tot_cyc tot_geom))
    as [invalid|e] eqn:Hscan.
  2:{ intros H. inversion H; subst. repeat split; auto. discriminate. }
  intros H.
  destruct (run_cycles_spec abspath glob Mol readfile GetRMSD ID ADD tot_cyc tot_geom
              _ invalid (NoDup_range start stop) _ _ _ _ H) as (Hmono & _ & Hdone).
  split; [|split].
  - intros p Hp. apply Hmono. rewrite isfile_write_file, Hp. apply orb_true_r.
  - intros p Hp. destruct (run_cycles_files _ _ _ _ _ _ H p Hp) as [Hold|Hnew].
    + rewrite isfile_write_file in Hold. apply orb_true_iff in Hold.
      destruct Hold as [E|Hold]; [|now left].
      apply String.eqb_eq in E. right. left. now symmetry.
    + right. now right.
  - intros ->. destruct (Hdone eq_refl) as (_ & Hd2).
    intros c Hc. apply Hd2. now apply In_range.
Qed.

(** X12: a run that raises inside the builder leaves no artifact for
    the cycle it was building, and that cycle is the only built one
    without artifact: the next run starts it again. *)
Theorem raising_cycle_leaves_no_artifact (start stop : Z) (w w' : world)
    (log : list event) (e : exn) :
  main' start stop w = (w', (log, Raise e)) -> log <> [] ->
  exists c, In (Build c) log /\ start <= c < stop /\
            isfile w' (artifact c) = false /\
            forall c', In (Build c') log -> c' <> c -> isfile w' (artifact c') = true.
Proof.
  unfold main. rewrite find_invalid_confs_world.
  destruct (snd (find_invalid_confs abspath glob [] ID ADD true tot_cyc tot_geom))
    as [invalid|e0] eqn:Hscan.
  2:{ intros H Hl. inversion H; subst. now elim Hl. }
  intros H _.
  destruct (run_cycles_raised _ invalid (NoDup_range start stop) _ _ _ _ H)
    as (c & H1 & H2 & H3 & H4).
  exists c. split; [assumption|]. split; [now apply In_range|]. auto.
Qed.

(** X13: two runs over consecutive ranges do the work of one run over
    the whole range: when the run over [start, mid) came to its end,
    the run over [mid, stop) on the files it left logs what the rest of
    a single run over [start, stop) logs, ends the same way and leaves
    the same files. *)
Theorem consecutive_runs_compose (start mid stop : Z) (w w1 w2 : world)
    (l1 l2 : list event) (r2 : result unit) :
  start <= mid <= stop ->
  main' start mid w = (w1, (l1, Ok tt)) ->
  main' mid stop w1 = (w2, (l2, r2)) ->
  exists w3, main' start stop w = (w3, ((l1 ++ l2)%list, r2))
             /\ forall p, isfile w3 p = isfile w2 p.
Proof.
  intros Hr. unfold main.
  rewrite (find_invalid_confs_world abspath glob w),
    (find_invalid_confs_world abspath glob w1).
  destruct (snd (find_invalid_confs abspath glob [] ID ADD true tot_cyc tot_geom))
    as [invalid|e] eqn:Hscan; [|discriminate].
  intros H1 H2.
  rewrite <- (range_append start mid stop Hr), run_cycles_app, H1.
  destruct (run_cycles_spec abspath glob Mol readfile GetRMSD ID ADD tot_cyc tot_geom
              _ invalid (NoDup_range start mid) _ _ _ _ H1) as (Hmono & _).
  assert (Heq : forall p,
             isfile (write_file w1 "invalid_conf_paths.txt" (TextFile invalid)) p
             = isfile w1 p).
  { intros p. rewrite isfile_write_file.
    destruct (String.eqb_spec "invalid_conf_paths.txt" p) as [<-|]; [|reflexivity].
    cbn [orb]. symmetry. apply Hmono.
    rewrite isfile_write_file, String.eqb_refl. reflexivity. }
  destruct (run_cycles_isfile_ext _ _ _ w1 _ _ _ Heq H2) as (w3 & -> & Heq3).
  exists w3. split; [reflexivity|]. intros p. now rewrite Heq3.
Qed.

End DriverMore.

(** X14: the artifacts of two different cycles are different files, and
    none of them is the list of invalid conformers: no run overwrites
    the table of another cycle. *)
Theorem artifacts_do_not_collide (writedir ID ADD : string) (c c' : Z) :
  c <> c' ->
  pkl_path writedir ID ADD c <> pkl_path writedir ID ADD c' /\
  pkl_path writedir ID ADD c <> "invalid_conf_paths.txt".
Proof.
  intros Hne. split.
  - intros E. apply pkl_path_inj in E. contradiction.
  - intros E. symmetry in E. now apply pkl_path_not_txt in E.
Qed.

Lemma artifacts_do_not_collide_witness :
  0 <> 1 /\
  pkl_path "/w/pwRMSD" "X" "+H" 0 <> pkl_path "/w/pwRMSD" "X" "+H" 1 /\
  pkl_path "/w/pwRMSD" "X" "+H" 0 <> "invalid_conf_paths.txt".
Proof.
  assert (H1 : 0 <> 1) by lia.
  split; [exact H1|].
  exact (artifacts_do_not_collide "/w/pwRMSD" "X" "+H" 0 1 H1).
Defined.

Lemma files_after_a_run_witness :
  example_main 0 1 [] = (fst (example_main 0 1 []),
                         (fst (snd (example_main 0 1 [])), Ok tt)) /\
  (forall p, isfile [] p = true -> isfile (fst (example_main 0 1 [])) p = true) /\
  (forall p, isfile (fst (example_main 0 1 [])) p = true ->
     isfile [] p = true \/ p = "invalid_conf_paths.txt" \/
     exists c, In (Build c) (fst (snd (example_main 0 1 []))) /\
               p = pkl_path (main_writedir example_abspath) "X" "+H" c) /\
  (Ok tt = Ok tt ->
   forall c, 0 <= c < 1 ->
     isfile (fst (example_main 0 1 []))
       (pkl_path (main_writedir example_abspath) "X" "+H" c) = true).
Proof.
  assert (H1 : example_main 0 1 [] = (fst (example_main 0 1 []),
                                      (fst (snd (example_main 0 1 [])), Ok tt)))
    by (vm_compute; reflexivity).
  split; [exact H1|].
  exact (files_after_a_run example_abspath example_full_glob string
           example_readfile example_GetRMSD "X" "+H" 3 2 0 1 [] _ _ _ H1).
Defined.

Lemma raising_cycle_leaves_no_artifact_witness :
  example_main 1 2 [] = (fst (example_main 1 2 []),
                         (fst (snd (example_main 1 2 [])), Raise MismatchedColumns)) /\
  fst (snd (example_main 1 2 [])) <> [] /\
  exists c, In (Build c) (fst (snd (example_main 1 2 []))) /\ 1 <= c < 2 /\
            isfile (fst (example_main 1 2 []))
              (pkl_path (main_writedir example_abspath) "X" "+H" c) = false /\
            forall c', In (Build c') (fst (snd (example_main 1 2 []))) -> c' <> c ->
              isfile (fst (example_main 1 2 []))
                (pkl_path (main_writedir example_abspath) "X" "+H" c') = true.
Proof.
  assert (H1 : example_main 1 2 [] = (fst (example_main 1 2 []),
                                      (fst (snd (example_main 1 2 [])),
                                       Raise MismatchedColumns)))
    by (vm_compute; reflexivity).
  assert (H2 : fst (snd (example_main 1 2 [])) <> []) by (vm_compute; discriminate).
  split; [exact H1|]. split; [exact H2|].
  exact (raising_cycle_leaves_no_artifact example_abspath example_full_glob string
           example_readfile example_GetRMSD "X" "+H" 3 2 1 2 [] _ _ _ H1 H2).
Defined.

Lemma consecutive_runs_compose_witness :
  0 <= 1 <= 2 /\
  example_main 0 1 [] = (fst (example_main 0 1 []),
                         (fst (snd (example_main 0 1 [])), Ok tt)) /\
  example_main 1 2 (fst (example_main 0 1 []))
    = (fst (example_main 1 2 (fst (example_main 0 1 []))),
       (fst (snd (example_main 1 2 (fst (example_main 0 1 [])))),
        snd (snd (example_main 1 2 (fst (example_main 0 1 [])))))) /\
  exists w3,
    example_main 0 2 []
    = (w3, ((fst (snd (example_main 0 1 []))
             ++ fst (snd (example_main 1 2 (fst (example_main 0 1 [])))))%list,
            snd (snd (example_main 1 2 (fst (example_main 0 1 [])))))) /\
    forall p, isfile w3 p
              = isfile (fst (example_main 1 2 (fst (example_main 0 1 [])))) p.
Proof.
  assert (H0 : 0 <= 1 <= 2) by lia.
  assert (H1 : example_main 0 1 [] = (fst (example_main 0 1 []),
                                      (fst (snd (example_main 0 1 [])), Ok tt)))
    by (vm_compute; reflexivity).
  assert (H2 : example_main 1 2 (fst (example_main 0 1 []))
               = (fst (example_main 1 2 (fst (example_main 0 1 []))),
                  (fst (snd (example_main 1 2 (fst (example_main 0 1 [])))),
                   snd (snd (example_main 1 2 (fst (example_main 0 1 [])))))))
    by (vm_compute; reflexivity).
  split; [exact H0|]. split; [exact H1|]. split; [exact H2|].
  exact (consecutive_runs_compose example_abspath example_full_glob string
           example_readfile example_GetRMSD "X" "+H" 3 2 0 1 2 [] _ _ _ _ _
           H0 H1 H2).
Defined.

Example consecutive_runs_ex :
  snd (example_main 0 2 [])
  = ((fst (snd (example_main 0 1 []))
      ++ fst (snd (example_main 1 2 (fst (example_main 0 1 [])))))%list,
     Raise MismatchedColumns).
Proof. vm_compute. reflexivity. Qed.
